(** * Musical chairs (jogo das cadeiras): a shallow embedding of [src/main.cpp]

    The C++ program runs one coordinator thread and [NUM_JOGADORES] player
    threads over three pieces of shared state: the game object
    ([JogoDasCadeiras]), a counting semaphore ([cadeira_sem]) and two atomic
    flags ([musica_parada], [jogo_ativo]).

    - The methods of [Cadeira] and [JogoDasCadeiras] are state transformers;
      a method whose C++ behaviour is undefined on some input ([pop_back] or
      [back] on an empty vector, [operator[]] out of range, signed overflow)
      returns [None] there.
    - [int] values are integers of [Z]; the only arithmetic the program does
      on them is the decrement of [eliminar_jogador], guarded by [INT_MIN].
    - The semaphore is its counter, a [Z]; a blocking [acquire] is a step
      that is enabled only when the counter is positive.
    - The program as a whole is a transition system in which one step is one
      statement of one thread ([passo_prog]): the coordinator and every
      player have their own position, and any thread that is not blocked may
      run next. What holds of the program holds in every interleaving.
    - An orderly round ([rodada]) is the loop body of
      [Coordenador::iniciar_jogo] in the interleavings in which every racer
      finishes its pass, claim and log entry included, before the
      coordinator looks at the semaphore again. The program has other
      interleavings, and what holds of orderly rounds need not hold of them.
    - The traffic on the semaphore, with the coordinator's probes interleaved
      with the racers, is a labelled transition system.
    - For questions of program order and of locking, the thread bodies are
      listed instruction by instruction. *)

From Stdlib Require Import ZArith Lia.
From stdpp Require Import base tactics option numbers list relations.

Local Open Scope Z_scope.

(** ** Constants *)

Definition INT_MIN : Z := - 2 ^ 31.

Definition INT_MAX : Z := 2 ^ 31 - 1.

(** [constexpr int NUM_JOGADORES = 4;] *)
Definition NUM_JOGADORES : Z := 4.

(** ** class Cadeira *)

(** A seat stores the id of the player sitting on it; 0 means empty. *)
Record Cadeira : Type := MkCadeira { id_jogador_ : Z }.

#[global] Instance Cadeira_eq_dec : EqDecision Cadeira.
Proof. solve_decision. Defined.

(** [Cadeira() : id_jogador_(0) {}] *)
Definition Cadeira_new : Cadeira := {| id_jogador_ := 0 |}.

Definition set_id_jogador (id_jogador : Z) (c : Cadeira) : Cadeira :=
  {| id_jogador_ := id_jogador |}.

Definition get_id_jogador (c : Cadeira) : Z := id_jogador_ c.

(** ** class JogoDasCadeiras *)

Record JogoDasCadeiras : Type := MkJogo {
  num_jogadores_ : Z;
  cadeiras_ : list Cadeira;
  jogadores_eliminados_ : list Z
}.

(** The constructor: [for (int i = 0; i < num_jogadores-1; i++) emplace_back()].
    For [num_jogadores <= 1] the loop body never runs. This is the object
    the constructor builds when its behaviour is defined; the overflow of
    [num_jogadores-1] is checked in [JogoDasCadeiras_ctor]. *)
Definition JogoDasCadeiras_new (num_jogadores : Z) : JogoDasCadeiras :=
  {| num_jogadores_ := num_jogadores;
     cadeiras_ := replicate (Z.to_nat (num_jogadores - 1)) Cadeira_new;
     jogadores_eliminados_ := [] |}.

Definition get_num_jogadores (g : JogoDasCadeiras) : Z := num_jogadores_ g.

(** [cadeiras_[0].get_id_jogador()]: undefined on an empty vector. *)
Definition get_id_vencedor (g : JogoDasCadeiras) : option Z :=
  get_id_jogador <$> cadeiras_ g !! 0%nat.

(** [--num_jogadores_]: signed overflow at [INT_MIN] is undefined. *)
Definition eliminar_jogador (g : JogoDasCadeiras) : option JogoDasCadeiras :=
  if decide (INT_MIN < num_jogadores_ g)
  then Some {| num_jogadores_ := num_jogadores_ g - 1;
               cadeiras_ := cadeiras_ g;
               jogadores_eliminados_ := jogadores_eliminados_ g |}
  else None.

(** The range-for of [pegar_cadeira]: the first seat whose id is 0 takes the
    caller's id and the loop breaks; the flag says whether that happened. *)
Fixpoint pegar_cadeira_loop (id_jogador : Z) (cs : list Cadeira)
  : bool * list Cadeira :=
  match cs with
  | [] => (false, [])
  | cadeira :: resto =>
      if decide (get_id_jogador cadeira = 0)
      then (true, set_id_jogador id_jogador cadeira :: resto)
      else let r := pegar_cadeira_loop id_jogador resto in
           (r.1, cadeira :: r.2)
  end.

Definition pegar_cadeira (id_jogador : Z) (g : JogoDasCadeiras)
  : bool * JogoDasCadeiras :=
  let r := pegar_cadeira_loop id_jogador (cadeiras_ g) in
  (r.1, {| num_jogadores_ := num_jogadores_ g;
           cadeiras_ := r.2;
           jogadores_eliminados_ := jogadores_eliminados_ g |}).

(** [cadeiras_.pop_back()]: undefined on an empty vector. *)
Definition pop_back {A : Type} (l : list A) : option (list A) :=
  match l with
  | [] => None
  | _ => Some (take (length l - 1)%nat l)
  end.

Definition remover_cadeira (g : JogoDasCadeiras) : option JogoDasCadeiras :=
  cs ← pop_back (cadeiras_ g);
  Some {| num_jogadores_ := num_jogadores_ g;
          cadeiras_ := cs;
          jogadores_eliminados_ := jogadores_eliminados_ g |}.

(** [for (auto &cadeira : cadeiras_) cadeira.set_id_jogador(0);] *)
Definition esvaziar_cadeiras (g : JogoDasCadeiras) : JogoDasCadeiras :=
  {| num_jogadores_ := num_jogadores_ g;
     cadeiras_ := set_id_jogador 0 <$> cadeiras_ g;
     jogadores_eliminados_ := jogadores_eliminados_ g |}.

(** [jogadores_eliminados_.push_back(id_jogador)] *)
Definition add_jogador_eliminado (id_jogador : Z) (g : JogoDasCadeiras)
  : JogoDasCadeiras :=
  {| num_jogadores_ := num_jogadores_ g;
     cadeiras_ := cadeiras_ g;
     jogadores_eliminados_ := jogadores_eliminados_ g ++ [id_jogador] |}.

(** What [exibir_estado] writes: one line per seat, numbered from 1, with the
    id on it, then the last eliminated id. *)
Record Relatorio : Type := MkRelatorio {
  linhas_cadeiras : list (nat * Z);
  ultimo_eliminado : Z
}.

(** [jogadores_eliminados_.back()] is undefined on an empty vector. *)
Definition exibir_estado (g : JogoDasCadeiras) : option Relatorio :=
  let linhas := imap (λ i c, (S i, get_id_jogador c)) (cadeiras_ g) in
  p ← last (jogadores_eliminados_ g);
  Some {| linhas_cadeiras := linhas; ultimo_eliminado := p |}.

(** ** Seat-level vocabulary *)

Definition ocupada (c : Cadeira) : Prop := get_id_jogador c ≠ 0.

#[global] Instance ocupada_dec c : Decision (ocupada c).
Proof. unfold ocupada. apply _. Defined.

(** Ids on the occupied seats, in seat order. *)
Definition ocupantes (cs : list Cadeira) : list Z :=
  filter (λ id, id ≠ 0) (get_id_jogador <$> cs).

Definition num_ocupadas (cs : list Cadeira) : nat := length (ocupantes cs).

(** [i] is the first empty seat in scan order. *)
Definition primeira_livre (cs : list Cadeira) (i : nat) : Prop :=
  (∃ c, cs !! i = Some c ∧ get_id_jogador c = 0) ∧
  ∀ j c, (j < i)%nat → cs !! j = Some c → get_id_jogador c ≠ 0.

(** ** Operation sequences on the seat list *)

(** The three operations that touch [cadeiras_]. *)
Inductive Op : Type :=
  | OpPegar (id_jogador : Z)
  | OpEsvaziar
  | OpRemover.

Definition aplicar (o : Op) (g : JogoDasCadeiras) : option JogoDasCadeiras :=
  match o with
  | OpPegar id => Some (pegar_cadeira id g).2
  | OpEsvaziar => Some (esvaziar_cadeiras g)
  | OpRemover => remover_cadeira g
  end.

Fixpoint executar (ops : list Op) (g : JogoDasCadeiras)
  : option JogoDasCadeiras :=
  match ops with
  | [] => Some g
  | o :: resto => g' ← aplicar o g; executar resto g'
  end.

(** The ids passed to [pegar_cadeira] are nonzero and pairwise distinct
    between two clears; [usados] are the ids already used since the last
    clear. *)
Fixpoint ids_distintos (usados : list Z) (ops : list Op) : Prop :=
  match ops with
  | [] => True
  | OpPegar id :: resto =>
      id ≠ 0 ∧ (id ∉ usados) ∧ ids_distintos (id :: usados) resto
  | OpEsvaziar :: resto => ids_distintos [] resto
  | OpRemover :: resto => ids_distintos usados resto
  end.

(** The ids used since the last clear, after running [ops]. *)
Fixpoint usados_apos (usados : list Z) (ops : list Op) : list Z :=
  match ops with
  | [] => usados
  | OpPegar id :: resto => usados_apos (id :: usados) resto
  | OpEsvaziar :: resto => usados_apos [] resto
  | OpRemover :: resto => usados_apos usados resto
  end.

(** The occupancy invariant: distinct seats hold distinct players, every
    seated player claimed since the last clear, and the number of occupied
    seats lies between 0 and the number of seats. *)
Definition inv_ocupacao (usados : list Z) (g : JogoDasCadeiras) : Prop :=
  NoDup (ocupantes (cadeiras_ g)) ∧
  ocupantes (cadeiras_ g) ⊆ usados ∧
  0 ≤ Z.of_nat (num_ocupadas (cadeiras_ g)) ≤ Z.of_nat (length (cadeiras_ g)).

(** ** The elimination of one round *)

(** The coordinator decrements the player count ([eliminar_jogador], line
    264) and the player that found no seat logs itself
    ([add_jogador_eliminado], line 220). *)
Definition eliminacao_da_rodada (perdedor : Z) (g : JogoDasCadeiras)
  : option JogoDasCadeiras :=
  g1 ← eliminar_jogador g;
  Some (add_jogador_eliminado perdedor g1).

(** ** std::counting_semaphore, as its counter *)

(** [release(n)] adds [n] permits. The standard requires that [n] is not
    negative and that the counter stays within the maximum the semaphore
    was declared with, here [NUM_JOGADORES]. This is the arithmetic of a
    release whose behaviour is defined; the precondition is checked in
    [sem_release_def]. *)
Definition sem_release (n : Z) (contador : Z) : Z := contador + n.

(** [try_acquire()] takes a permit if there is one and says whether it did. *)
Definition sem_try_acquire (contador : Z) : bool * Z :=
  if decide (0 < contador) then (true, contador - 1) else (false, contador).

(** [acquire()] takes a permit; with none available the caller blocks, which
    is [None] here: the caller makes no step until somebody releases. *)
Definition sem_acquire (contador : Z) : option Z :=
  if decide (0 < contador) then Some (contador - 1) else None.

(** ** The shared state of a run *)

(** The game object, the globals, and the ids of the player threads that are
    still inside [Jogador::joga]; this last field is not a variable of the
    program, it records which threads are alive. *)
Record Mundo : Type := MkMundo {
  jogo : JogoDasCadeiras;
  cadeira_sem : Z;
  musica_parada : bool;
  jogo_ativo : bool;
  ativos : list Z
}.

Definition com_jogo (g : JogoDasCadeiras) (w : Mundo) : Mundo :=
  {| jogo := g; cadeira_sem := cadeira_sem w;
     musica_parada := musica_parada w; jogo_ativo := jogo_ativo w;
     ativos := ativos w |}.

Definition com_sem (c : Z) (w : Mundo) : Mundo :=
  {| jogo := jogo w; cadeira_sem := c;
     musica_parada := musica_parada w; jogo_ativo := jogo_ativo w;
     ativos := ativos w |}.

Definition com_musica_parada (b : bool) (w : Mundo) : Mundo :=
  {| jogo := jogo w; cadeira_sem := cadeira_sem w;
     musica_parada := b; jogo_ativo := jogo_ativo w;
     ativos := ativos w |}.

Definition com_jogo_ativo (b : bool) (w : Mundo) : Mundo :=
  {| jogo := jogo w; cadeira_sem := cadeira_sem w;
     musica_parada := musica_parada w; jogo_ativo := b;
     ativos := ativos w |}.

(** The thread of player [id] returns from [joga]. *)
Definition sair (id : Z) (w : Mundo) : Mundo :=
  {| jogo := jogo w; cadeira_sem := cadeira_sem w;
     musica_parada := musica_parada w; jogo_ativo := jogo_ativo w;
     ativos := filter (λ j, j ≠ id) (ativos w) |}.

Definition comecar_musica (w : Mundo) : Mundo := com_musica_parada false w.

Definition parar_musica (w : Mundo) : Mundo := com_musica_parada true w.

(** [Coordenador::liberar_threads_eliminadas]: [cadeira_sem.release()]. *)
Definition liberar_threads_eliminadas (w : Mundo) : Mundo :=
  com_sem (sem_release 1 (cadeira_sem w)) w.

(** [Jogador::tentar_ocupar_cadeira]: pass the semaphore, then claim a seat
    under the mutex. [None]: the player is blocked in [acquire]. *)
Definition tentar_ocupar_cadeira (id : Z) (w : Mundo) : option (bool * Mundo) :=
  c ← sem_acquire (cadeira_sem w);
  let r := pegar_cadeira id (jogo w) in
  Some (r.1, com_jogo r.2 (com_sem c w)).

(** The body of the loop of [Jogador::joga] once the music has stopped: with
    a seat the player waits for the music to restart; without one it logs
    itself as eliminated and returns. *)
Definition joga_corrida (id : Z) (w : Mundo) : option Mundo :=
  '(ret, w') ← tentar_ocupar_cadeira id w;
  if ret : bool then Some w'
  else Some (sair id (com_jogo (add_jogador_eliminado id (jogo w')) w')).

(** The players race in the order [ordem] in which they get through
    [acquire] and make their claim. Nobody releases while they race, so once
    one of them blocks everyone behind blocks too; the blocked ones are
    returned. *)
Fixpoint correr (ordem : list Z) (w : Mundo) : Mundo * list Z :=
  match ordem with
  | [] => (w, [])
  | id :: resto =>
      match joga_corrida id w with
      | Some w' => correr resto w'
      | None => (w, ordem)
      end
  end.

(** The polling loop [while (cadeira_sem.try_acquire()) { release(); sleep }]
    ends when a probe finds no permit; every successful probe is put back.
    While permits remain and nobody takes them the coordinator polls
    forever: there is no state after the loop. *)
Definition aguardar_sem (w : Mundo) : option Mundo :=
  if (sem_try_acquire (cadeira_sem w)).1 then None else Some w.

Section Partida.
(** [N] stands for the compile-time constant [NUM_JOGADORES], which the
    source sets to 4. *)
Context (N : Z).

(** [main]: the game object, the semaphore with [N - 1] permits, the music
    playing, and players 1 to [N]. *)
Definition Mundo_inicial : Mundo :=
  {| jogo := JogoDasCadeiras_new N;
     cadeira_sem := N - 1;
     musica_parada := false;
     jogo_ativo := true;
     ativos := seqZ 1 N |}.

(** [JogoDasCadeiras::iniciar_rodada]: from the second round on, clear the
    seats, remove one and hand [num_jogadores_ - 1] permits back. *)
Definition iniciar_rodada (w : Mundo) : option Mundo :=
  if decide (num_jogadores_ (jogo w) < N) then
    g ← remover_cadeira (esvaziar_cadeiras (jogo w));
    Some (com_sem (sem_release (num_jogadores_ g - 1) (cadeira_sem w))
                  (com_jogo g w))
  else Some w.


End Partida.




(** ** The semaphore protocol, operation by operation *)

(** Where the coordinator is in its loop: in the first polling loop (line
    259), between that loop and [liberar_threads_eliminadas], in the second
    polling loop (line 269), past it, or out of the loop. *)
Inductive Fase : Type :=
  | Sondando1
  | Eliminar
  | Sondando2
  | Fechar
  | Encerrado.

(** The shared state together with the number of racers of the current
    round that have not yet got through [acquire], the coordinator's
    position, and whether the coordinator holds the permit of a successful
    probe that it has not yet put back. *)
Record Protocolo : Type := MkProtocolo {
  p_mundo : Mundo;
  p_correndo : nat;
  p_fase : Fase;
  p_sonda : bool
}.

(** The semaphore operations, and the end of the game. *)
Inductive Evento : Type :=
  | EvAcquire
  | EvTryAcquire (ok : bool)
  | EvRelease (n : Z)
  | EvFim.

Definition sondando (f : Fase) : bool :=
  match f with
  | Sondando1 | Sondando2 => true
  | _ => false
  end.

Definition apos_sonda (f : Fase) : Fase :=
  match f with
  | Sondando1 => Eliminar
  | Sondando2 => Fechar
  | _ => f
  end.

Section ProtocoloSem.
Context (N : Z).

(** The music has stopped in the first round: [N - 1] seats and permits,
    [N] racers. *)
Definition Protocolo_inicial : Protocolo :=
  {| p_mundo := parar_musica (Mundo_inicial N);
     p_correndo := Z.to_nat N;
     p_fase := Sondando1;
     p_sonda := false |}.

(** One semaphore operation of some thread.
    - A racer gets through its blocking [acquire].
    - The coordinator probes with [try_acquire]; a successful probe is
      followed by its [release()], a failed one ends the polling loop.
    - After the first loop: [eliminar_jogador], then the extra [release()]
      of [liberar_threads_eliminadas].
    - After the second loop, with one player left the game ends; otherwise
      the music restarts, [iniciar_rodada] clears the seats, removes one
      and releases [num_jogadores_ - 1] permits, the music stops, and the
      [num_jogadores_] players still in the game race again. *)
Inductive passo : Protocolo → Evento → Protocolo → Prop :=
  | passo_acquire w r f b c :
      sem_acquire (cadeira_sem w) = Some c →
      passo (MkProtocolo w (S r) f b) EvAcquire
            (MkProtocolo (com_sem c w) r f b)
  | passo_sonda w r f c :
      sondando f = true →
      sem_try_acquire (cadeira_sem w) = (true, c) →
      passo (MkProtocolo w r f false) (EvTryAcquire true)
            (MkProtocolo (com_sem c w) r f true)
  | passo_devolve w r f :
      passo (MkProtocolo w r f true) (EvRelease 1)
            (MkProtocolo (com_sem (sem_release 1 (cadeira_sem w)) w)
                         r f false)
  | passo_sonda_falha w r f c :
      sondando f = true →
      sem_try_acquire (cadeira_sem w) = (false, c) →
      passo (MkProtocolo w r f false) (EvTryAcquire false)
            (MkProtocolo (com_sem c w) r (apos_sonda f) false)
  | passo_eliminar w r g :
      eliminar_jogador (jogo w) = Some g →
      passo (MkProtocolo w r Eliminar false) (EvRelease 1)
            (MkProtocolo (liberar_threads_eliminadas (com_jogo g w))
                         r Sondando2 false)
  | passo_fim w r :
      get_num_jogadores (jogo w) = 1 →
      passo (MkProtocolo w r Fechar false) EvFim
            (MkProtocolo (comecar_musica (com_jogo_ativo false w))
                         r Encerrado false)
  | passo_nova_rodada w r w1 :
      get_num_jogadores (jogo w) ≠ 1 →
      iniciar_rodada N (comecar_musica w) = Some w1 →
      passo (MkProtocolo w r Fechar false)
            (EvRelease (num_jogadores_ (jogo w1) - 1))
            (MkProtocolo (parar_musica w1)
                         (r + Z.to_nat (num_jogadores_ (jogo w1)))
                         Sondando1 false).

Inductive alcancavel : Protocolo → Prop :=
  | alcancavel_inicio : alcancavel Protocolo_inicial
  | alcancavel_passo s ev s' :
      alcancavel s → passo s ev s' → alcancavel s'.

(** The bookkeeping behind the bounds: how permits, the probe, and the
    racers still to pass add up in each position of the coordinator. *)
Definition inv_protocolo (s : Protocolo) : Prop :=
  let w := p_mundo s in
  let n := num_jogadores_ (jogo w) in
  let c := Z.of_nat (length (cadeiras_ (jogo w))) in
  let sem := cadeira_sem w in
  let b := if p_sonda s then 1 else 0 in
  let r := Z.of_nat (p_correndo s) in
  0 ≤ sem ∧
  (p_sonda s = true → sondando (p_fase s) = true) ∧
  match p_fase s with
  | Sondando1 => c = n - 1 ∧ 2 ≤ n ≤ N ∧ r = sem + b + 1 ∧ sem + b ≤ c
  | Eliminar => c = n - 1 ∧ 2 ≤ n ≤ N ∧ r = 1 ∧ sem = 0
  | Sondando2 => c = n ∧ 1 ≤ n < N ∧ r = sem + b ∧ sem + b ≤ 1
  | Fechar => c = n ∧ 1 ≤ n < N ∧ r = 0 ∧ sem = 0
  | Encerrado => c = n ∧ n = 1 ∧ r = 0 ∧ sem = 0
  end.
End ProtocoloSem.

(** The protocol as a function: the step that performs the given operation
    in the given state, when there is one. *)
Definition passo_f (N : Z) (ev : Evento) (s : Protocolo) : option Protocolo :=
  let w := p_mundo s in
  match ev, p_sonda s, p_fase s with
  | EvAcquire, b, f =>
      match p_correndo s with
      | S r => c ← sem_acquire (cadeira_sem w);
               Some (MkProtocolo (com_sem c w) r f b)
      | O => None
      end
  | EvTryAcquire ok, false, f =>
      if sondando f then
        let t := sem_try_acquire (cadeira_sem w) in
        if bool_decide (t.1 = ok) then
          Some (MkProtocolo (com_sem t.2 w) (p_correndo s)
                            (if ok then f else apos_sonda f) ok)
        else None
      else None
  | EvRelease n, true, f =>
      if decide (n = 1) then
        Some (MkProtocolo (com_sem (sem_release 1 (cadeira_sem w)) w)
                          (p_correndo s) f false)
      else None
  | EvRelease n, false, Eliminar =>
      if decide (n = 1) then
        g ← eliminar_jogador (jogo w);
        Some (MkProtocolo (liberar_threads_eliminadas (com_jogo g w))
                          (p_correndo s) Sondando2 false)
      else None
  | EvRelease n, false, Fechar =>
      if decide (get_num_jogadores (jogo w) = 1) then None
      else
        w1 ← iniciar_rodada N (comecar_musica w);
        if decide (n = num_jogadores_ (jogo w1) - 1) then
          Some (MkProtocolo (parar_musica w1)
                            (p_correndo s + Z.to_nat (num_jogadores_ (jogo w1)))
                            Sondando1 false)
        else None
  | EvFim, false, Fechar =>
      if decide (get_num_jogadores (jogo w) = 1) then
        Some (MkProtocolo (comecar_musica (com_jogo_ativo false w))
                          (p_correndo s) Encerrado false)
      else None
  | _, _, _ => None
  end.

Fixpoint executar_eventos (N : Z) (evs : list Evento) (s : Protocolo)
  : option Protocolo :=
  match evs with
  | [] => Some s
  | ev :: resto => s' ← passo_f N ev s; executar_eventos N resto s'
  end.

(** A whole game of four on the semaphore, probes included: 3 seats, then 2,
    then 1, and the coordinator leaves its loop. *)
Definition eventos_exemplo : list Evento :=
  [EvAcquire; EvTryAcquire true; EvAcquire; EvRelease 1; EvAcquire;
   EvTryAcquire false; EvRelease 1; EvTryAcquire true; EvRelease 1;
   EvAcquire; EvTryAcquire false; EvRelease 2;
   EvAcquire; EvAcquire; EvTryAcquire false; EvRelease 1; EvAcquire;
   EvTryAcquire false; EvRelease 1;
   EvTryAcquire true; EvRelease 1; EvAcquire; EvTryAcquire false;
   EvRelease 1; EvAcquire; EvTryAcquire false; EvFim].

(** ** The thread bodies, instruction by instruction *)

(** The methods of [JogoDasCadeiras] that read or write its fields. *)
Inductive Metodo : Type :=
  | MIniciarRodada
  | MEliminarJogador
  | MExibirEstado
  | MPegarCadeira
  | MGetNumJogadores
  | MGetIdVencedor
  | MAddJogadorEliminado.

(** What a thread does, as far as synchronisation goes: operations on
    [music_mutex] and [music_cv], stores to the two atomic flags, operations
    on [cadeira_sem], calls into the game object, sleeping and printing.
    [IEsperar b] is the loop that waits on [music_cv], with the mutex held,
    until [musica_parada] equals [b]. *)
Inductive Instr : Type :=
  | ILock
  | IUnlock
  | IEsperar (parada : bool)
  | INotifyAll
  | ISetMusicaParada (b : bool)
  | ISetJogoAtivo (b : bool)
  | ILerJogoAtivo
  | ISemAcquire
  | ISemTryAcquire (ok : bool)
  | ISemRelease
  | IJogo (m : Metodo)
  | ISleep
  | ICout.

#[global] Instance Metodo_eq_dec : EqDecision Metodo.
Proof. solve_decision. Defined.

#[global] Instance Instr_eq_dec : EqDecision Instr.
Proof. solve_decision. Defined.

(** [JogoDasCadeiras::comecar_musica], lines 110-115. *)
Definition comecar_musica_codigo : list Instr :=
  [ILock; ISetMusicaParada false; INotifyAll; IUnlock].

(** [JogoDasCadeiras::parar_musica], lines 118-125. *)
Definition parar_musica_codigo : list Instr :=
  [ILock; ISetMusicaParada true; INotifyAll; IUnlock; ICout].

(** [JogoDasCadeiras::iniciar_rodada], lines 91-107; the release happens
    from the second round on. *)
Definition iniciar_rodada_codigo (primeira : bool) : list Instr :=
  if primeira then [IJogo MIniciarRodada; ICout]
  else [IJogo MIniciarRodada; ISemRelease; ICout].

(** A polling loop in which [n] probes succeed before one fails. *)
Fixpoint sondagem_codigo (n : nat) : list Instr :=
  match n with
  | O => [ISemTryAcquire false]
  | S m => [ISemTryAcquire true; ISemRelease; ISleep] ++ sondagem_codigo m
  end.

(** What the coordinator does when [get_num_jogadores() == 1], lines
    277-279, followed by the [comecar_musica()] of line 282. *)
Definition fim_de_jogo_codigo : list Instr :=
  [ISetJogoAtivo false; IJogo MGetIdVencedor; ICout] ++ comecar_musica_codigo.

(** One iteration of the loop of [Coordenador::iniciar_jogo], lines 247-283:
    [final] says whether one player is left at the test of line 276. *)
Definition coordenador_iteracao (primeira final : bool) (p1 p2 : nat)
  : list Instr :=
  [ILerJogoAtivo] ++
  iniciar_rodada_codigo primeira ++
  [ISleep] ++
  parar_musica_codigo ++
  sondagem_codigo p1 ++
  [IJogo MEliminarJogador] ++
  [ISemRelease] ++
  sondagem_codigo p2 ++
  [IJogo MExibirEstado] ++
  [IJogo MGetNumJogadores] ++
  (if final then fim_de_jogo_codigo else comecar_musica_codigo).

(** [Jogador::tentar_ocupar_cadeira], lines 186-195. *)
Definition tentar_ocupar_cadeira_codigo : list Instr :=
  [ISemAcquire; ILock; IJogo MPegarCadeira; IUnlock].

(** One iteration of the loop of [Jogador::joga], lines 199-223: [sentou]
    is the result of [tentar_ocupar_cadeira]. *)
Definition joga_iteracao (sentou : bool) : list Instr :=
  [ILerJogoAtivo; ILock; IEsperar true; IUnlock] ++
  tentar_ocupar_cadeira_codigo ++
  (if sentou then [ILock; IEsperar false; IUnlock]
   else [IJogo MAddJogadorEliminado]).

(** Every call into the game object happens with [music_mutex] held;
    [detem] says whether the thread holds it on entry. *)
Fixpoint protegido (detem : bool) (codigo : list Instr) : bool :=
  match codigo with
  | [] => true
  | ILock :: resto => protegido true resto
  | IUnlock :: resto => protegido false resto
  | IJogo _ :: resto => detem && protegido detem resto
  | _ :: resto => protegido detem resto
  end.

(** The calls into the game object made without the mutex. *)
Fixpoint desprotegidos (detem : bool) (codigo : list Instr) : list Metodo :=
  match codigo with
  | [] => []
  | ILock :: resto => desprotegidos true resto
  | IUnlock :: resto => desprotegidos false resto
  | IJogo m :: resto =>
      (if detem then [] else [m]) ++ desprotegidos detem resto
  | _ :: resto => desprotegidos detem resto
  end.

(** Position of the first occurrence of an instruction. *)
Definition posicao (a : Instr) (codigo : list Instr) : option nat :=
  fst <$> list_find (λ i, i = a) codigo.

(** Both instructions occur and the first occurrence of [a] is before that
    of [b]. *)
Definition ocorre_antes (a b : Instr) (codigo : list Instr) : bool :=
  match posicao a codigo, posicao b codigo with
  | Some i, Some j => bool_decide (i < j)%nat
  | _, _ => false
  end.

(** ** The end of the game, seen by a player that kept its seat *)

(** Where a player is in [Jogador::joga]: at the loop test (line 199),
    waiting for the music to stop (line 203), racing (line 209), waiting for
    the music to restart (line 213), or out of the function. *)
Inductive PcJogador : Type :=
  | NoTopo
  | EsperaParar
  | Correndo
  | EsperaRecomecar
  | Retornou.

(** A step of the player on the flags; [None] when it cannot move: it is
    blocked on the condition variable, or it has returned. The race itself
    is [joga_corrida]. *)
Definition passo_jogador (w : Mundo) (pc : PcJogador) : option PcJogador :=
  match pc with
  | NoTopo => Some (if jogo_ativo w then EsperaParar else Retornou)
  | EsperaParar => if musica_parada w then Some Correndo else None
  | Correndo => None
  | EsperaRecomecar => if musica_parada w then None else Some NoTopo
  | Retornou => None
  end.

(** The effect of a coordinator instruction on the flags. *)
Definition exec_instr (i : Instr) (w : Mundo) : Mundo :=
  match i with
  | ISetMusicaParada b => com_musica_parada b w
  | ISetJogoAtivo b => com_jogo_ativo b w
  | _ => w
  end.

(** The flags, what the coordinator still has to execute, and the player. *)
Record Final : Type := MkFinal {
  fi_mundo : Mundo;
  fi_coordenador : list Instr;
  fi_pc : PcJogador
}.

(** Either thread makes a step. *)
Inductive passo_final : Final → Final → Prop :=
  | passo_final_coordenador w i resto pc :
      passo_final (MkFinal w (i :: resto) pc)
                  (MkFinal (exec_instr i w) resto pc)
  | passo_final_jogador w codigo pc pc' :
      passo_jogador w pc = Some pc' →
      passo_final (MkFinal w codigo pc) (MkFinal w codigo pc').

(** The same tail with the two stores in the other order: music first, flag
    second. *)
Definition fim_de_jogo_invertido : list Instr :=
  comecar_musica_codigo ++ [ISetJogoAtivo false; IJogo MGetIdVencedor; ICout].

(** ** Further vocabulary for the seats *)

(** The number of empty seats. *)
Definition num_livres (cs : list Cadeira) : nat :=
  length (filter (λ c, get_id_jogador c = 0) cs).

(** Calls of [pegar_cadeira] one after the other, with their results. *)
Fixpoint reivindicar (ids : list Z) (g : JogoDasCadeiras)
  : list bool * JogoDasCadeiras :=
  match ids with
  | [] => ([], g)
  | id :: resto =>
      let p := pegar_cadeira id g in
      let q := reivindicar resto p.2 in
      (p.1 :: q.1, q.2)
  end.

(** ** The mutex along a thread body *)

(** Whether the thread holds [music_mutex] after running the code, starting
    with [detem]. [None]: the code locks a mutex it already holds, unlocks
    one it does not hold, or waits on the condition variable without holding
    the mutex; all three are undefined. *)
Fixpoint mutex_final (detem : bool) (codigo : list Instr) : option bool :=
  match codigo with
  | [] => Some detem
  | ILock :: resto => if detem then None else mutex_final true resto
  | IUnlock :: resto => if detem then mutex_final false resto else None
  | IEsperar _ :: resto => if detem then mutex_final true resto else None
  | _ :: resto => mutex_final detem resto
  end.

(** Every instruction selected by [p] runs with the mutex held. *)
Fixpoint sob_mutex (p : Instr → bool) (detem : bool) (codigo : list Instr)
  : bool :=
  match codigo with
  | [] => true
  | ILock :: resto => sob_mutex p true resto
  | IUnlock :: resto => sob_mutex p false resto
  | i :: resto => (if p i then detem else true) && sob_mutex p detem resto
  end.

(** The stores to [musica_parada] and the notifications of [music_cv]. *)
Definition sinaliza_musica (i : Instr) : bool :=
  match i with
  | ISetMusicaParada _ | INotifyAll => true
  | _ => false
  end.

(** ** Counting the semaphore operations still to come *)




(** What the coordinator executes from the restart of the music at the end
    of an iteration that is not the last to the stop of the music in the
    next iteration: lines 282, 247, 250, 253 and 256. *)
Definition entre_rodadas_codigo : list Instr :=
  comecar_musica_codigo ++ [ILerJogoAtivo] ++ iniciar_rodada_codigo false ++
  [ISleep] ++ parar_musica_codigo.

(** ** The program, statement by statement *)

(** The rounds above let every racer finish its pass before the coordinator
    looks at the semaphore again. The program does not enforce that: between
    any two statements of one thread the other threads may run. Here every
    thread has its own position, and one step is one statement of one
    thread, run as a whole. *)

(** Where the coordinator is in [Coordenador::iniciar_jogo]: at the loop test
    (line 247); in [iniciar_rodada] (250), at its test (line 93), before
    [esvaziar_cadeiras] (94), [remover_cadeira] (95) or the [release] of
    line 96; before [parar_musica] (256); at the [try_acquire] of the first
    or second poll (259, 269); at the [release] that puts a successful
    probe back (260, 270); before [eliminar_jogador] (264),
    [liberar_threads_eliminadas] (266), the [back()] of [exibir_estado]
    (274), the test of line 276, the store of line 277, the
    [get_id_vencedor] of line 279, [comecar_musica] (282); or out of the
    loop. *)
Inductive PcC : Type :=
  | CTopo
  | CIniciar
  | CEsvaziar
  | CRemover
  | CRelease
  | CParar
  | CSonda (segunda : bool)
  | CDevolve (segunda : bool)
  | CEliminar
  | CLiberar
  | CExibir
  | CTeste
  | CFimAtivo
  | CVencedor
  | CComecar
  | CSaiu.

(** Where a player is in [Jogador::joga]: at the loop test (line 199),
    waiting for the music to stop (204), at the [acquire] of
    [tentar_ocupar_cadeira] (188), at its [pegar_cadeira] (191), waiting for
    the music to restart (214), before [add_jogador_eliminado] and the
    [return] that follows it (220), or out of the function. *)
Inductive PcJ : Type :=
  | JTopo
  | JEsperaParar
  | JAcquire
  | JPegar
  | JEsperaRecomecar
  | JRegistrar
  | JRetornou.

#[global] Instance PcC_eq_dec : EqDecision PcC.
Proof. solve_decision. Defined.

#[global] Instance PcJ_eq_dec : EqDecision PcJ.
Proof. solve_decision. Defined.

(** What a statement does: it runs, or the thread cannot move (it is blocked
    or it has ended), or the behaviour of the statement is undefined. *)
Inductive Passo (A : Type) : Type :=
  | Avanca (a : A)
  | Bloqueado
  | Indefinido.
Arguments Avanca {A} a.
Arguments Bloqueado {A}.
Arguments Indefinido {A}.

(** [release(n)] with its precondition: [n] is not negative and the counter
    stays within the maximum the semaphore was declared with. *)
Definition sem_release_def (maximo n contador : Z) : option Z :=
  if decide (0 ≤ n ∧ contador + n ≤ maximo)
  then Some (sem_release n contador)
  else None.

(** [JogoDasCadeiras::iniciar_rodada], lines 91-107, with the precondition
    of its [release] checked. *)
Definition iniciar_rodada_def (N : Z) (w : Mundo) : option Mundo :=
  if decide (num_jogadores_ (jogo w) < N) then
    g ← remover_cadeira (esvaziar_cadeiras (jogo w));
    c ← sem_release_def N (num_jogadores_ g - 1) (cadeira_sem w);
    Some (com_sem c (com_jogo g w))
  else Some w.

(** The constructor, lines 84-89, with the decrement of its loop bound
    checked: [num_jogadores - 1] overflows at [INT_MIN]. *)
Definition JogoDasCadeiras_ctor (num_jogadores : Z) : option JogoDasCadeiras :=
  if decide (INT_MIN < num_jogadores)
  then Some (JogoDasCadeiras_new num_jogadores)
  else None.

(** The shared state, the position of the coordinator, the player threads
    in the order in which [main] creates them, each with its id and its
    position, the number of iterations the coordinator has begun, and what
    line 279 has printed as the winner. *)
Record Programa : Type := MkPrograma {
  pr_mundo : Mundo;
  pr_coord : PcC;
  pr_jogs : list (Z * PcJ);
  pr_rodada : nat;
  pr_vencedor : option Z
}.

(** [main], lines 292-327: the game object, players 1 to [N] and the
    coordinator, all at the start of their functions. *)
Definition Programa_inicial (N : Z) : Programa :=
  {| pr_mundo := Mundo_inicial N;
     pr_coord := CTopo;
     pr_jogs := (λ id, (id, JTopo)) <$> seqZ 1 N;
     pr_rodada := 0;
     pr_vencedor := None |}.

(** One statement of the coordinator. The three statements of
    [iniciar_rodada] are three steps; [comecar_musica] and [parar_musica]
    are critical sections of [music_mutex] and one step each; of
    [exibir_estado] only the [back()] that can be undefined is a step. A
    probe is [sem_try_acquire]: it takes a permit whenever one is there;
    the standard lets an implementation fail a probe even then, which is
    not modelled. *)
Definition passo_coordenador (N : Z) (p : Programa) : Passo Programa :=
  let w := pr_mundo p in
  let vai (w' : Mundo) (pc : PcC) :=
    Avanca (MkPrograma w' pc (pr_jogs p) (pr_rodada p) (pr_vencedor p)) in
  match pr_coord p with
  | CTopo =>
      if jogo_ativo w
      then Avanca (MkPrograma w CIniciar (pr_jogs p) (S (pr_rodada p))
                              (pr_vencedor p))
      else vai w CSaiu
  | CIniciar =>
      vai w (if decide (num_jogadores_ (jogo w) < N)
             then CEsvaziar else CParar)
  | CEsvaziar => vai (com_jogo (esvaziar_cadeiras (jogo w)) w) CRemover
  | CRemover =>
      match remover_cadeira (jogo w) with
      | Some g => vai (com_jogo g w) CRelease
      | None => Indefinido
      end
  | CRelease =>
      match sem_release_def N (num_jogadores_ (jogo w) - 1) (cadeira_sem w)
      with
      | Some c => vai (com_sem c w) CParar
      | None => Indefinido
      end
  | CParar => vai (parar_musica w) (CSonda false)
  | CSonda segunda =>
      let t := sem_try_acquire (cadeira_sem w) in
      if t.1 then vai (com_sem t.2 w) (CDevolve segunda)
      else vai w (if segunda then CExibir else CEliminar)
  | CDevolve segunda =>
      match sem_release_def N 1 (cadeira_sem w) with
      | Some c => vai (com_sem c w) (CSonda segunda)
      | None => Indefinido
      end
  | CEliminar =>
      match eliminar_jogador (jogo w) with
      | Some g => vai (com_jogo g w) CLiberar
      | None => Indefinido
      end
  | CLiberar =>
      match sem_release_def N 1 (cadeira_sem w) with
      | Some c => vai (com_sem c w) (CSonda true)
      | None => Indefinido
      end
  | CExibir =>
      match exibir_estado (jogo w) with
      | Some _ => vai w CTeste
      | None => Indefinido
      end
  | CTeste =>
      vai w (if decide (get_num_jogadores (jogo w) = 1)
             then CFimAtivo else CComecar)
  | CFimAtivo => vai (com_jogo_ativo false w) CVencedor
  | CVencedor =>
      match get_id_vencedor (jogo w) with
      | Some v =>
          Avanca (MkPrograma w CComecar (pr_jogs p) (pr_rodada p) (Some v))
      | None => Indefinido
      end
  | CComecar => vai (comecar_musica w) CTopo
  | CSaiu => Bloqueado
  end.

(** One statement of the player [id] at position [pc]. The waits on
    [music_cv] test their flag with [music_mutex] held; [acquire] blocks
    without a permit. *)
Definition passo_thread_jogador (id : Z) (pc : PcJ) (w : Mundo)
  : Passo (PcJ * Mundo) :=
  match pc with
  | JTopo =>
      if jogo_ativo w then Avanca (JEsperaParar, w)
      else Avanca (JRetornou, sair id w)
  | JEsperaParar =>
      if musica_parada w then Avanca (JAcquire, w) else Bloqueado
  | JAcquire =>
      match sem_acquire (cadeira_sem w) with
      | Some c => Avanca (JPegar, com_sem c w)
      | None => Bloqueado
      end
  | JPegar =>
      let r := pegar_cadeira id (jogo w) in
      Avanca (if r.1 then JEsperaRecomecar else JRegistrar, com_jogo r.2 w)
  | JEsperaRecomecar =>
      if musica_parada w then Bloqueado else Avanca (JTopo, w)
  | JRegistrar =>
      Avanca (JRetornou,
              sair id (com_jogo (add_jogador_eliminado id (jogo w)) w))
  | JRetornou => Bloqueado
  end.

(** The threads: the coordinator, and the players by their position in
    [pr_jogs]. *)
Inductive Thread : Type :=
  | TCoord
  | TJog (i : nat).

#[global] Instance Thread_eq_dec : EqDecision Thread.
Proof. solve_decision. Defined.

(** The thread [t] runs its next statement. *)
Definition passo_prog (N : Z) (t : Thread) (p : Programa) : Passo Programa :=
  match t with
  | TCoord => passo_coordenador N p
  | TJog i =>
      match pr_jogs p !! i with
      | Some (id, pc) =>
          match passo_thread_jogador id pc (pr_mundo p) with
          | Avanca (pc', w') =>
              Avanca (MkPrograma w' (pr_coord p)
                        (<[i := (id, pc')]> (pr_jogs p))
                        (pr_rodada p) (pr_vencedor p))
          | Bloqueado => Bloqueado
          | Indefinido => Indefinido
          end
      | None => Bloqueado
      end
  end.

(** Some thread runs one statement. *)
Definition passo_rel (N : Z) (p p' : Programa) : Prop :=
  ∃ t, passo_prog N t p = Avanca p'.

(** The states of the program that some interleaving of the threads
    reaches. *)
Definition alcanca_prog (N : Z) (p : Programa) : Prop :=
  rtc (passo_rel N) (Programa_inicial N) p.

(** The threads run in the order of the schedule [ts]; [None] when the
    thread whose turn it is cannot run its statement. *)
Fixpoint executar_prog (N : Z) (ts : list Thread) (p : Programa)
  : option Programa :=
  match ts with
  | [] => Some p
  | t :: resto =>
      match passo_prog N t p with
      | Avanca p' => executar_prog N resto p'
      | _ => None
      end
  end.

(** The position of the player at index [i]. *)
Definition pc_jogador (p : Programa) (i : nat) : option PcJ :=
  snd <$> pr_jogs p !! i.

(** No thread can run: the program is at its end, or it hangs. *)
Definition parado (N : Z) (p : Programa) : Prop :=
  ∀ t, passo_prog N t p = Bloqueado.

(** What the position of the coordinator says about the shared state, in a
    game of [N] players: [k] iterations begun, [n] the value of
    [num_jogadores_], [c] the number of seats, [s] the counter of the
    semaphore, and the two flags. All of these but [s] are written by the
    coordinator only, and the players only lower [s]. *)
Definition inv_coord (N : Z) (pc : PcC) (k n c s : Z) (mp ja : bool) : Prop :=
  match pc with
  | CTopo =>
      mp = false ∧ s ≤ c ∧
      ((k = 0 ∧ n = N ∧ c = N - 1 ∧ ja = true) ∨
       (1 ≤ k ∧ n = N - k ∧ c = n ∧ s = 0 ∧ 1 ≤ n ∧
        ja = bool_decide (n ≠ 1)))
  | CIniciar =>
      mp = false ∧ ja = true ∧ s ≤ c ∧
      ((k = 1 ∧ n = N ∧ c = N - 1) ∨
       (2 ≤ k ∧ n = N - (k - 1) ∧ c = n ∧ s = 0 ∧ 2 ≤ n))
  | CEsvaziar | CRemover =>
      mp = false ∧ ja = true ∧ 2 ≤ k ∧ n = N - (k - 1) ∧ c = n ∧
      2 ≤ n ∧ s = 0
  | CRelease =>
      mp = false ∧ ja = true ∧ 2 ≤ k ∧ n = N - (k - 1) ∧ c = n - 1 ∧
      2 ≤ n ∧ s = 0
  | CParar =>
      mp = false ∧ ja = true ∧ 1 ≤ k ∧ n = N - (k - 1) ∧ c = n - 1 ∧
      2 ≤ n ∧ s ≤ c
  | CSonda false =>
      mp = true ∧ ja = true ∧ 1 ≤ k ∧ n = N - (k - 1) ∧ c = n - 1 ∧
      2 ≤ n ∧ s ≤ c
  | CDevolve false =>
      mp = true ∧ ja = true ∧ 1 ≤ k ∧ n = N - (k - 1) ∧ c = n - 1 ∧
      2 ≤ n ∧ s + 1 ≤ c
  | CEliminar =>
      mp = true ∧ ja = true ∧ 1 ≤ k ∧ n = N - (k - 1) ∧ c = n - 1 ∧
      2 ≤ n ∧ s = 0
  | CLiberar =>
      mp = true ∧ ja = true ∧ 1 ≤ k ∧ n = N - k ∧ c = n ∧ 1 ≤ n ∧ s = 0
  | CSonda true =>
      mp = true ∧ ja = true ∧ 1 ≤ k ∧ n = N - k ∧ c = n ∧ 1 ≤ n ∧ s ≤ 1
  | CDevolve true =>
      mp = true ∧ ja = true ∧ 1 ≤ k ∧ n = N - k ∧ c = n ∧ 1 ≤ n ∧ s = 0
  | CExibir | CTeste =>
      mp = true ∧ ja = true ∧ 1 ≤ k ∧ n = N - k ∧ c = n ∧ 1 ≤ n ∧ s = 0
  | CFimAtivo =>
      mp = true ∧ ja = true ∧ 1 ≤ k ∧ n = N - k ∧ c = n ∧ n = 1 ∧ s = 0
  | CVencedor =>
      mp = true ∧ ja = false ∧ 1 ≤ k ∧ n = N - k ∧ c = n ∧ n = 1 ∧ s = 0
  | CComecar =>
      mp = true ∧ ja = bool_decide (n ≠ 1) ∧ 1 ≤ k ∧ n = N - k ∧ c = n ∧
      1 ≤ n ∧ s = 0
  | CSaiu =>
      mp = false ∧ ja = false ∧ 1 ≤ k ∧ n = N - k ∧ c = n ∧ n = 1 ∧ s = 0
  end.

(** The music has not yet stopped for the first time. *)
Definition silencio (p : Programa) : Prop :=
  pr_rodada p = 0%nat ∨
  (pr_rodada p = 1%nat ∧ (pr_coord p = CIniciar ∨ pr_coord p = CParar)).

(** Nobody has raced yet: every player is at the loop test or waits for the
    music to stop, the [N - 1] seats are empty, all permits are there and
    the log is empty. *)
Definition antes_da_corrida (N : Z) (p : Programa) : Prop :=
  Forall (λ j, j.2 = JTopo ∨ j.2 = JEsperaParar) (pr_jogs p) ∧
  cadeiras_ (jogo (pr_mundo p)) = replicate (Z.to_nat (N - 1)) Cadeira_new ∧
  cadeira_sem (pr_mundo p) = N - 1 ∧
  jogadores_eliminados_ (jogo (pr_mundo p)) = [].

(** What holds in every state of the program. *)
Definition inv_prog (N : Z) (p : Programa) : Prop :=
  let w := pr_mundo p in
  0 ≤ cadeira_sem w ∧
  (pr_jogs p).*1 = seqZ 1 N ∧
  inv_coord N (pr_coord p) (Z.of_nat (pr_rodada p))
    (num_jogadores_ (jogo w)) (Z.of_nat (length (cadeiras_ (jogo w))))
    (cadeira_sem w) (musica_parada w) (jogo_ativo w) ∧
  (silencio p → antes_da_corrida N p).


(** The statements the coordinator still has to run from line 277 to the
    end of its function, and those of a player from its wait for the
    restart of the music to its return when the game is over. *)
Definition resto_coordenador (pc : PcC) : nat :=
  match pc with
  | CFimAtivo => 4
  | CVencedor => 3
  | CComecar => 2
  | CTopo => 1
  | _ => 0
  end.

Definition resto_jogador (pc : PcJ) : nat :=
  match pc with
  | JEsperaRecomecar => 2
  | JTopo => 1
  | _ => 0
  end.

(** The coordinator is between line 277 and its return, and one player is
    left by the count. *)
Definition fim_de_jogo (p : Programa) : Prop :=
  num_jogadores_ (jogo (pr_mundo p)) = 1 ∧
  (pr_coord p = CFimAtivo ∨ pr_coord p = CVencedor ∨ pr_coord p = CComecar ∨
   pr_coord p = CTopo ∨ pr_coord p = CSaiu).

(** The game is ending and the player at index [i] has not gone back to
    wait for another stop of the music: it waits for the restart, or the
    music has restarted and it is at the loop test or has returned. *)
Definition inv_fim (i : nat) (p : Programa) : Prop :=
  fim_de_jogo p ∧
  match pc_jogador p i with
  | Some JEsperaRecomecar => True
  | Some JTopo | Some JRetornou => musica_parada (pr_mundo p) = false
  | _ => False
  end.

(** Statements left to the coordinator and to the player at index [i]. *)
Definition medida_fim (i : nat) (p : Programa) : nat :=
  resto_coordenador (pr_coord p) +
  from_option resto_jogador 0%nat (pc_jogador p i).

(** ** Schedules of the game of four *)

(** A first round in which every racer finishes its pass before the
    coordinator looks at the semaphore again: players 1, 2 and 3 sit down
    and player 4 logs itself. *)
Definition rodada1_ordeira : list Thread :=
  [TJog 0; TJog 1; TJog 2; TJog 3; TCoord; TCoord; TCoord;
   TJog 0; TJog 1; TJog 2; TJog 3;
   TJog 0; TJog 0; TJog 1; TJog 1; TJog 2; TJog 2;
   TCoord; TCoord; TCoord; TJog 3; TJog 3; TJog 3;
   TCoord; TCoord; TCoord; TCoord].

(** A second round of the same kind: players 1 and 2 sit down and player 3
    logs itself. *)
Definition rodada2_ordeira : list Thread :=
  [TJog 0; TJog 1; TJog 2; TJog 0; TJog 1; TJog 2;
   TCoord; TCoord; TCoord; TCoord; TCoord; TCoord;
   TJog 0; TJog 1; TJog 2; TJog 0; TJog 0; TJog 1; TJog 1;
   TCoord; TCoord; TCoord; TJog 2; TJog 2; TJog 2;
   TCoord; TCoord; TCoord; TCoord].

(** A third round of the same kind, up to the test of line 276: player 1
    sits down and player 2 logs itself. *)
Definition rodada3_ordeira : list Thread :=
  [TJog 0; TJog 1; TJog 0; TJog 1;
   TCoord; TCoord; TCoord; TCoord; TCoord; TCoord;
   TJog 0; TJog 1; TJog 0; TJog 0;
   TCoord; TCoord; TCoord; TJog 1; TJog 1; TJog 1;
   TCoord; TCoord; TCoord].

(** The end of the game after that: lines 277, 279 and 282, the loop test,
    and player 1 that wakes up and returns. *)
Definition fim_ordeiro : list Thread :=
  [TCoord; TCoord; TCoord; TCoord; TJog 0; TJog 0].

(** A second round in which player 3, let through by
    [liberar_threads_eliminadas], takes its permit and is then not scheduled:
    the second poll of the coordinator ends, and so does the iteration. *)
Definition rodada2_tardia : list Thread :=
  [TJog 0; TJog 1; TJog 2; TJog 0; TJog 1; TJog 2;
   TCoord; TCoord; TCoord; TCoord; TCoord; TCoord;
   TJog 0; TJog 1; TJog 2; TJog 0; TJog 0; TJog 1; TJog 1;
   TCoord; TCoord; TCoord; TJog 2;
   TCoord; TCoord; TCoord; TCoord].

(** The third iteration begins, and player 3 makes its claim after
    [iniciar_rodada] has cleared the seats, removed one and released the
    permit of the round. *)
Definition rodada3_inicio_tardio : list Thread :=
  [TCoord; TCoord; TCoord; TCoord; TCoord; TJog 2].

(** The rest of the third iteration and the end of the game: the three
    players wait for the stop and race for the seat that player 3 occupies;
    players 1 and 2 get the two permits, fail and log themselves; the
    coordinator ends the game. *)
Definition rodada3_tardia : list Thread :=
  [TJog 0; TJog 1; TJog 2; TJog 0; TJog 1; TJog 2; TCoord;
   TJog 0; TJog 1; TJog 2; TJog 0; TJog 0; TJog 0;
   TCoord; TCoord; TCoord; TJog 1; TJog 1; TJog 1;
   TCoord; TCoord; TCoord; TCoord; TCoord; TCoord; TCoord].

(** A third round, up to line 279, in which both finalists take their
    permit, one before and one after [liberar_threads_eliminadas], and
    neither is scheduled for its claim. *)
Definition rodada3_sem_reivindicar : list Thread :=
  [TJog 0; TJog 1; TJog 0; TJog 1;
   TCoord; TCoord; TCoord; TCoord; TCoord; TCoord;
   TJog 0; TJog 1; TJog 0; TCoord; TCoord; TCoord; TJog 1;
   TCoord; TCoord; TCoord; TCoord].

(** A first round in which player 4, let through by
    [liberar_threads_eliminadas], fails its claim and is not scheduled for
    [add_jogador_eliminado] before the second poll has ended. *)
Definition rodada1_sem_registro : list Thread :=
  [TJog 0; TJog 1; TJog 2; TJog 3; TCoord; TCoord; TCoord;
   TJog 0; TJog 1; TJog 2; TJog 3;
   TJog 0; TJog 0; TJog 1; TJog 1; TJog 2; TJog 2;
   TCoord; TCoord; TCoord; TJog 3; TJog 3; TCoord].

(** * Properties *)

(** ** The seat scan *)

Lemma pegar_cadeira_loop_length id cs :
  length (pegar_cadeira_loop id cs).2 = length cs.
Proof.
  induction cs as [|c cs IH]; simpl; [done|].
  case_decide; simpl; [done|]. by rewrite IH.
Qed.

Lemma pegar_cadeira_loop_true id cs :
  (pegar_cadeira_loop id cs).1 = true →
  ∃ i, primeira_livre cs i ∧
       (pegar_cadeira_loop id cs).2 = <[i := {| id_jogador_ := id |}]> cs.
Proof.
  induction cs as [|c cs IH]; simpl; [done|].
  case_decide as Hc; simpl.
  - intros _. exists 0%nat. split; [|done].
    split; [by exists c | intros j c' Hj; lia].
  - intros Hr. destruct (IH Hr) as (i & [(c0 & Hi & H0) Hlt] & Heq).
    exists (S i). split; [split|].
    + by exists c0.
    + intros [|j] c' Hj Hlk; simpl in Hlk.
      * by simplify_eq.
      * eapply Hlt; [|done]. lia.
    + simpl. by rewrite Heq.
Qed.

Lemma pegar_cadeira_loop_false id cs :
  (pegar_cadeira_loop id cs).1 = false →
  (pegar_cadeira_loop id cs).2 = cs ∧ Forall ocupada cs.
Proof.
  induction cs as [|c cs IH]; simpl; [done|].
  case_decide as Hc; simpl; [done|].
  intros Hr. destruct (IH Hr) as [-> HF]. split; [done|].
  by constructor.
Qed.

Lemma primeira_livre_unique cs i j :
  primeira_livre cs i → primeira_livre cs j → i = j.
Proof.
  intros [(ci & Hi & Hi0) Hlti] [(cj & Hj & Hj0) Hltj].
  destruct (Nat.lt_trichotomy i j) as [Hlt|[->|Hlt]]; [|done|].
  - by destruct (Hltj _ _ Hlt Hi).
  - by destruct (Hlti _ _ Hlt Hj).
Qed.

(** ** Clearing the seats *)

Lemma esvaziar_cadeiras_replicate g :
  cadeiras_ (esvaziar_cadeiras g) =
  replicate (length (cadeiras_ g)) Cadeira_new.
Proof.
  unfold esvaziar_cadeiras; simpl.
  induction (cadeiras_ g) as [|c cs IH]; csimpl; [done|].
  by rewrite IH.
Qed.

(** C9. [esvaziar_cadeiras] leaves every seat empty (id 0) and keeps the
    number of seats, the player count and the log; clearing twice is the
    same as clearing once. *)
Theorem esvaziar_cadeiras_idempotent (g : JogoDasCadeiras) :
  Forall (λ c, get_id_jogador c = 0) (cadeiras_ (esvaziar_cadeiras g)) ∧
  length (cadeiras_ (esvaziar_cadeiras g)) = length (cadeiras_ g) ∧
  num_jogadores_ (esvaziar_cadeiras g) = num_jogadores_ g ∧
  jogadores_eliminados_ (esvaziar_cadeiras g) = jogadores_eliminados_ g ∧
  esvaziar_cadeiras (esvaziar_cadeiras g) = esvaziar_cadeiras g.
Proof.
  split_and!.
  - rewrite esvaziar_cadeiras_replicate. by apply Forall_replicate.
  - simpl. by rewrite length_fmap.
  - done.
  - done.
  - unfold esvaziar_cadeiras. simpl. f_equal.
    rewrite <- list_fmap_compose. done.
Qed.

(** ** The round report *)

(** C10. [exibir_estado] has a result exactly when the elimination log is
    not empty: with at least one recorded elimination it reports every seat
    and the last logged id, and on the empty log it has none. *)
Theorem exibir_estado_defined_iff (g : JogoDasCadeiras) :
  (jogadores_eliminados_ g ≠ [] →
     ∃ r, exibir_estado g = Some r ∧
          last (jogadores_eliminados_ g) = Some (ultimo_eliminado r) ∧
          length (linhas_cadeiras r) = length (cadeiras_ g) ∧
          ∀ i c, cadeiras_ g !! i = Some c →
                 linhas_cadeiras r !! i = Some (S i, get_id_jogador c)) ∧
  (jogadores_eliminados_ g = [] → exibir_estado g = None) ∧
  (is_Some (exibir_estado g) ↔ jogadores_eliminados_ g ≠ []).
Proof.
  unfold exibir_estado.
  destruct (last (jogadores_eliminados_ g)) as [p|] eqn:Hl; simpl.
  - assert (jogadores_eliminados_ g ≠ []) as Hne.
    { intros E. rewrite E in Hl. done. }
    split_and!; [|done|by split; eauto].
    intros _. eexists. split; [done|]. simpl. split_and!; [done| |].
    + by rewrite length_imap.
    + intros i c Hi. rewrite list_lookup_imap, Hi. done.
  - apply last_None in Hl. split_and!; [done|done|].
    split; [intros [? ?]; done|done].
Qed.

(** ** One elimination per round *)

(** Whenever the decrement is defined, the elimination of a round
    (coordinator's [eliminar_jogador], loser's [add_jogador_eliminado])
    appends exactly one id to the log and lowers the player count by exactly
    one, so [num_jogadores_ = inicial - length log] is carried from before
    the round to after it. The seats are not touched. *)
Lemma eliminacao_da_rodada_correct
    (inicial perdedor : Z) (g : JogoDasCadeiras) :
  INT_MIN < num_jogadores_ g →
  ∃ g', eliminacao_da_rodada perdedor g = Some g' ∧
        jogadores_eliminados_ g' = jogadores_eliminados_ g ++ [perdedor] ∧
        length (jogadores_eliminados_ g') =
          S (length (jogadores_eliminados_ g)) ∧
        num_jogadores_ g' = num_jogadores_ g - 1 ∧
        cadeiras_ g' = cadeiras_ g ∧
        (num_jogadores_ g =
           inicial - Z.of_nat (length (jogadores_eliminados_ g)) →
         num_jogadores_ g' =
           inicial - Z.of_nat (length (jogadores_eliminados_ g'))).
Proof.
  intros Hmin. unfold eliminacao_da_rodada, eliminar_jogador.
  rewrite decide_True by done. simpl.
  eexists. split; [done|]. simpl.
  rewrite length_app. simpl. split_and!; try done; lia.
Qed.

(** ** The occupancy invariant *)

Lemma ocupantes_cons c cs :
  ocupantes (c :: cs) =
  if decide (get_id_jogador c ≠ 0) then get_id_jogador c :: ocupantes cs
  else ocupantes cs.
Proof. unfold ocupantes. by rewrite fmap_cons, filter_cons. Qed.

Lemma ocupantes_vazias cs :
  Forall (λ c, get_id_jogador c = 0) cs → ocupantes cs = [].
Proof.
  induction 1 as [|c cs Hc _ IH]; [done|].
  rewrite ocupantes_cons, decide_False by (by intros ?). done.
Qed.

Lemma num_ocupadas_le cs : (num_ocupadas cs ≤ length cs)%nat.
Proof.
  unfold num_ocupadas, ocupantes.
  etrans; [apply length_filter|]. by rewrite length_fmap.
Qed.

(** A successful claim by a nonzero id seats exactly that one more player. *)
Lemma pegar_cadeira_loop_ocupantes id cs :
  id ≠ 0 →
  (pegar_cadeira_loop id cs).1 = true →
  ocupantes (pegar_cadeira_loop id cs).2 ≡ₚ id :: ocupantes cs.
Proof.
  intros Hid. induction cs as [|c cs IH]; simpl; [done|].
  case_decide as Hc; simpl.
  - intros _. rewrite !ocupantes_cons. simpl.
    rewrite decide_True by done. rewrite decide_False; [done|].
    intros Hn. by apply Hn.
  - intros Hr. rewrite !ocupantes_cons, !decide_True by done.
    rewrite (IH Hr). apply Permutation_swap.
Qed.

(** [pegar_cadeira] never writes over an occupied seat. *)
Lemma pegar_cadeira_loop_preserva id cs i c :
  cs !! i = Some c → ocupada c →
  (pegar_cadeira_loop id cs).2 !! i = Some c.
Proof.
  revert i. induction cs as [|c0 cs IH]; intros i Hi Hoc; [done|].
  simpl. case_decide as Hc; simpl.
  - destruct i as [|i]; simpl in *; [|done].
    simplify_eq. by destruct Hoc.
  - destruct i as [|i]; simpl in *; [done|]. by apply IH.
Qed.

(** C1. [pegar_cadeira] answers true exactly when some seat is empty (id 0)
    before the call. On success the first empty seat in scan order, and only
    that seat, now holds the caller's id, so that for a nonzero id exactly
    one more seat is occupied; on failure the whole game state is unchanged.
    The number of seats, the player count and the elimination log are never
    touched. *)
Theorem pegar_cadeira_correct (id_jogador : Z) (g : JogoDasCadeiras) :
  let r := pegar_cadeira id_jogador g in
  (r.1 = true ↔ ∃ c, c ∈ cadeiras_ g ∧ get_id_jogador c = 0) ∧
  (r.1 = true →
     ∃ i, primeira_livre (cadeiras_ g) i ∧
          cadeiras_ r.2 = <[i := MkCadeira id_jogador]> (cadeiras_ g) ∧
          cadeiras_ r.2 !! i = Some (MkCadeira id_jogador) ∧
          (∀ j, j ≠ i → cadeiras_ r.2 !! j = cadeiras_ g !! j) ∧
          (id_jogador ≠ 0 →
           num_ocupadas (cadeiras_ r.2) = S (num_ocupadas (cadeiras_ g)))) ∧
  (r.1 = false → r.2 = g) ∧
  length (cadeiras_ r.2) = length (cadeiras_ g) ∧
  num_jogadores_ r.2 = num_jogadores_ g ∧
  jogadores_eliminados_ r.2 = jogadores_eliminados_ g.
Proof.
  destruct g as [n cs log]. unfold pegar_cadeira. simpl.
  split_and!; try done.
  - split.
    + intros Hr. destruct (pegar_cadeira_loop_true _ _ Hr)
        as (i & [(c & Hi & H0) _] & _).
      exists c. split; [|done]. by eapply list_elem_of_lookup_2.
    + intros (c & Hin & H0).
      destruct (pegar_cadeira_loop id_jogador cs).1 eqn:Hr; [done|].
      destruct (pegar_cadeira_loop_false _ _ Hr) as [_ HF].
      rewrite Forall_forall in HF. by destruct (HF _ Hin).
  - intros Hr. destruct (pegar_cadeira_loop_true _ _ Hr)
      as (i & Hfirst & Heq).
    exists i. split; [done|]. split; [done|]. rewrite Heq.
    destruct Hfirst as [(c & Hi & _) _].
    split_and!.
    + apply list_lookup_insert_eq. by eapply lookup_lt_Some.
    + intros j Hj. by apply list_lookup_insert_ne.
    + intros Hid. unfold num_ocupadas. rewrite <- Heq.
      by rewrite (pegar_cadeira_loop_ocupantes _ _ Hid Hr).
  - intros Hr. destruct (pegar_cadeira_loop_false _ _ Hr) as [-> _]. done.
  - apply pegar_cadeira_loop_length.
Qed.

Lemma pop_back_sublist {A} (l l' : list A) :
  pop_back l = Some l' → l' `sublist_of` l ∧ S (length l') = length l.
Proof.
  destruct l as [|x l]; [done|]. intros [= <-].
  split; [apply sublist_take|].
  rewrite length_take. simpl. lia.
Qed.

Lemma pop_back_snoc {A} (l : list A) x : pop_back (l ++ [x]) = Some l.
Proof.
  unfold pop_back. destruct (l ++ [x]) as [|y k] eqn:E.
  { by destruct l. }
  rewrite <- E, length_app. simpl.
  f_equal. apply take_app_length'. lia.
Qed.

Lemma ocupantes_sublist cs cs' :
  cs' `sublist_of` cs → ocupantes cs' `sublist_of` ocupantes cs.
Proof.
  intros Hs. unfold ocupantes.
  induction Hs as [|c k1 k2 _ IH|c k1 k2 _ IH]; [done| |].
  - rewrite !fmap_cons, !filter_cons. case_decide; [by constructor|done].
  - rewrite fmap_cons, filter_cons. case_decide; [by constructor|done].
Qed.

Lemma inv_ocupacao_inicial g :
  Forall (λ c, get_id_jogador c = 0) (cadeiras_ g) → inv_ocupacao [] g.
Proof.
  intros HF. unfold inv_ocupacao, num_ocupadas.
  rewrite (ocupantes_vazias _ HF). simpl.
  split_and!; [constructor|done|lia|lia].
Qed.

Lemma aplicar_inv_ocupacao usados o resto g g' :
  inv_ocupacao usados g →
  ids_distintos usados (o :: resto) →
  aplicar o g = Some g' →
  inv_ocupacao (usados_apos usados [o]) g'.
Proof.
  intros (Hnd & Hsub & _) Hids Hap.
  assert (∀ cs, 0 ≤ Z.of_nat (num_ocupadas cs) ≤ Z.of_nat (length cs)) as Hle.
  { intros cs. pose proof (num_ocupadas_le cs). lia. }
  destruct o as [id| |]; simpl in *; simplify_eq.
  - destruct Hids as (Hid & Hfresh & _).
    split_and!; [| |apply Hle|apply Hle]; simpl;
      destruct (pegar_cadeira_loop id (cadeiras_ g)).1 eqn:Hr.
    + rewrite (pegar_cadeira_loop_ocupantes _ _ Hid Hr).
      apply NoDup_cons. split; [|done].
      intros Hin. apply Hfresh. by apply Hsub.
    + by destruct (pegar_cadeira_loop_false _ _ Hr) as [-> _].
    + rewrite (pegar_cadeira_loop_ocupantes _ _ Hid Hr).
      intros x [->|Hx]%elem_of_cons; [left|right; by apply Hsub].
    + destruct (pegar_cadeira_loop_false _ _ Hr) as [-> _].
      intros x Hx. right. by apply Hsub.
  - split_and!; [| |apply Hle|apply Hle]; simpl.
    + rewrite ocupantes_vazias; [constructor|].
      apply Forall_fmap, Forall_true. done.
    + rewrite ocupantes_vazias; [done|].
      apply Forall_fmap, Forall_true. done.
  - unfold remover_cadeira in Hap.
    destruct (pop_back (cadeiras_ g)) as [cs|] eqn:Hp; simplify_eq/=.
    apply pop_back_sublist in Hp as [Hs _].
    apply ocupantes_sublist in Hs.
    split_and!; [| |apply Hle|apply Hle]; simpl.
    + by eapply sublist_NoDup.
    + intros x Hx. apply Hsub. by eapply sublist_subseteq.
Qed.

Lemma executar_inv_ocupacao pre suf usados g g' :
  inv_ocupacao usados g →
  ids_distintos usados (pre ++ suf) →
  executar pre g = Some g' →
  inv_ocupacao (usados_apos usados pre) g' ∧
  ids_distintos (usados_apos usados pre) suf.
Proof.
  revert usados g. induction pre as [|o pre IH]; intros usados g Hinv Hids Hex.
  { simpl in *. by simplify_eq. }
  simpl in Hex. destruct (aplicar o g) as [g1|] eqn:Hap; [|done].
  simpl in Hex.
  pose proof (aplicar_inv_ocupacao _ _ _ _ _ Hinv Hids Hap) as Hinv1.
  destruct o as [id| |]; simpl in *.
  - destruct Hids as (_ & _ & Hids). by eapply IH.
  - by eapply IH.
  - by eapply IH.
Qed.

(** C2. Start from a seat list that is all empty and run any sequence of
    [pegar_cadeira] / [esvaziar_cadeiras] / [remover_cadeira] in which the
    claiming ids are nonzero and pairwise distinct between two clears. After
    each operation of the sequence that the code defines (a [pop_back] needs
    a seat to remove): a claim has not written over any seat that was
    occupied, no id sits on two seats, and the number of occupied seats is
    between 0 and the number of seats. *)
Theorem ocupacao_invariante
    (g0 : JogoDasCadeiras) (pre : list Op) (o : Op) (suf : list Op)
    (g g' : JogoDasCadeiras) :
  Forall (λ c, get_id_jogador c = 0) (cadeiras_ g0) →
  ids_distintos [] (pre ++ o :: suf) →
  executar pre g0 = Some g →
  aplicar o g = Some g' →
  (∀ i c, cadeiras_ g !! i = Some c → ocupada c →
          (∃ id, o = OpPegar id) → cadeiras_ g' !! i = Some c) ∧
  NoDup (ocupantes (cadeiras_ g')) ∧
  0 ≤ Z.of_nat (num_ocupadas (cadeiras_ g'))
    ≤ Z.of_nat (length (cadeiras_ g')).
Proof.
  intros Hvazio Hids Hex Hap.
  destruct (executar_inv_ocupacao pre (o :: suf) [] g0 g
              (inv_ocupacao_inicial _ Hvazio) Hids Hex) as [Hinv Hids'].
  destruct (aplicar_inv_ocupacao _ _ _ _ _ Hinv Hids' Hap) as (Hnd & _ & Hle).
  split_and!; [|done|apply Hle|apply Hle].
  intros i c Hi Hoc [id ->]. simpl in Hap. simplify_eq. simpl.
  by apply pegar_cadeira_loop_preserva.
Qed.

Lemma ocupacao_invariante_witness :
  NoDup (ocupantes (cadeiras_
    (pegar_cadeira 5 (pegar_cadeira 7 (JogoDasCadeiras_new 4)).2).2)).
Proof.
  refine (proj1 (proj2 (ocupacao_invariante (JogoDasCadeiras_new 4)
    [OpPegar 7] (OpPegar 5) [OpRemover; OpEsvaziar; OpPegar 7]
    (pegar_cadeira 7 (JogoDasCadeiras_new 4)).2 _ _ _ _ _))).
  - vm_compute. repeat constructor.
  - simpl. repeat split; try done;
      rewrite ?elem_of_cons, ?elem_of_nil; intros H; decompose [or] H; done.
  - reflexivity.
  - reflexivity.
Defined.

(** ** Racing for the seats *)

Lemma pegar_cadeira_loop_livre id sentados livres :
  Forall (λ j, j ≠ 0) sentados →
  pegar_cadeira_loop id
    ((MkCadeira <$> sentados) ++ replicate (S livres) Cadeira_new) =
  (true, (MkCadeira <$> (sentados ++ [id])) ++ replicate livres Cadeira_new).
Proof.
  induction 1 as [|j sentados Hj _ IH]; csimpl in *.
  - done.
  - rewrite decide_False by done. by rewrite IH.
Qed.

Lemma pegar_cadeira_loop_cheio id sentados :
  Forall (λ j, j ≠ 0) sentados →
  pegar_cadeira_loop id (MkCadeira <$> sentados) =
  (false, MkCadeira <$> sentados).
Proof.
  induction 1 as [|j sentados Hj _ IH]; csimpl; [done|].
  rewrite decide_False by done. by rewrite IH.
Qed.



Lemma pop_back_replicate {A} n (x : A) :
  pop_back (replicate (S n) x) = Some (replicate n x).
Proof.
  unfold pop_back. rewrite length_replicate. simpl replicate at 1.
  f_equal. rewrite Nat.sub_1_r. simpl Nat.pred.
  rewrite take_replicate. f_equal. lia.
Qed.

Lemma separa_ultimo {A} (l : list A) q :
  length l = S q →
  ∃ s p, l = s ++ [p] ∧ length s = q ∧ take q l = s ∧ drop q l = [p].
Proof.
  intros Hl. destruct (drop q l) as [|p [|p' t]] eqn:Hd.
  - apply (f_equal length) in Hd. rewrite length_drop in Hd. simpl in Hd. lia.
  - exists (take q l), p. split_and!; [|rewrite length_take; lia|done|done].
    by rewrite <- Hd, take_drop.
  - apply (f_equal length) in Hd. rewrite length_drop in Hd. simpl in Hd. lia.
Qed.


Section PartidaProps.
Context (N : Z) (HN : 2 ≤ N).

Local Arguments correr : simpl never.








End PartidaProps.

(** ** The permits never exceed the seats *)

Section ProtocoloProps.
Context (N : Z) (HN : 2 ≤ N).

Lemma inv_protocolo_inicial : inv_protocolo N (Protocolo_inicial N).
Proof using HN.
  unfold inv_protocolo, Protocolo_inicial. simpl.
  rewrite length_replicate. split_and!; try done; lia.
Qed.

Lemma iniciar_rodada_seguinte w w1 :
  num_jogadores_ (jogo w) < N →
  iniciar_rodada N w = Some w1 →
  num_jogadores_ (jogo w1) = num_jogadores_ (jogo w) ∧
  S (length (cadeiras_ (jogo w1))) = length (cadeiras_ (jogo w)) ∧
  cadeira_sem w1 = cadeira_sem w + (num_jogadores_ (jogo w) - 1).
Proof.
  intros Hlt. unfold iniciar_rodada, remover_cadeira.
  rewrite decide_True by done.
  destruct (pop_back (cadeiras_ (esvaziar_cadeiras (jogo w))))
    as [cs|] eqn:Hp; [|done].
  simpl. intros [= <-]. simpl.
  apply pop_back_sublist in Hp as [_ Hl]. simpl in Hl.
  rewrite length_fmap in Hl. done.
Qed.

Lemma passo_inv_protocolo s ev s' :
  inv_protocolo N s → passo N s ev s' → inv_protocolo N s'.
Proof.
  intros Hinv Hp. destruct Hp; unfold inv_protocolo in *; simpl in *.
  - unfold sem_acquire in *. case_decide; simplify_eq.
    destruct Hinv as (Hsem0 & Hb & Hf).
    split_and!; [lia|done|].
    destruct f, b; lia.
  - unfold sem_try_acquire in *. case_decide; simplify_eq.
    destruct Hinv as (Hsem0 & Hb & Hf).
    split_and!; [lia|done|]. destruct f; try done; lia.
  - unfold sem_release. destruct Hinv as (Hsem0 & Hb & Hf).
    split_and!; [lia|done|]. specialize (Hb eq_refl).
    destruct f; try done; lia.
  - unfold sem_try_acquire in *. case_decide; simplify_eq.
    destruct Hinv as (Hsem0 & Hb & Hf).
    split_and!; [lia|by destruct f|]. destruct f; try done; simpl; lia.
  - unfold eliminar_jogador in *. case_decide; simplify_eq. simpl.
    unfold sem_release. destruct Hinv as (Hsem0 & Hb & Hf).
    split_and!; [lia|done|lia..].
  - unfold get_num_jogadores in *. destruct Hinv as (Hsem0 & Hb & Hf).
    split_and!; [lia|done|lia..].
  - unfold get_num_jogadores in *. destruct Hinv as (Hsem0 & Hb & Hf).
    match goal with H : iniciar_rodada _ _ = Some _ |- _ =>
      apply iniciar_rodada_seguinte in H as (Hn & Hc & Hs);
        [|simpl; lia] end.
    simpl in *. rewrite Hn.
    split_and!; [lia|done|lia..].
Qed.

Lemma alcancavel_inv_protocolo s : alcancavel N s → inv_protocolo N s.
Proof.
  induction 1 as [|s ev s' _ IH Hp].
  - apply inv_protocolo_inicial.
  - by eapply passo_inv_protocolo.
Qed.

Lemma passo_f_sound ev s s' : passo_f N ev s = Some s' → passo N s ev s'.
Proof.
  destruct s as [w r f b]. unfold passo_f. simpl.
  destruct ev as [|ok|n|].
  - destruct r as [|r]; [done|].
    destruct (sem_acquire (cadeira_sem w)) as [c|] eqn:Hc; [|done].
    simpl. intros [= <-]. by constructor.
  - destruct b; [done|]. destruct (sondando f) eqn:Hf; [|done].
    case_bool_decide as Hok; [|done]. intros [= <-].
    destruct (sem_try_acquire (cadeira_sem w)) as [t1 t2] eqn:Ht.
    simpl in *. subst t1. destruct ok; by constructor.
  - destruct b.
    + case_decide; [|done]. subst n. intros [= <-]. constructor.
    + destruct f; try done.
      * case_decide; [|done]. subst n.
        destruct (eliminar_jogador (jogo w)) as [g|] eqn:Hg; [|done].
        simpl. intros [= <-]. by constructor.
      * case_decide as H1; [done|].
        destruct (iniciar_rodada N (comecar_musica w)) as [w1|] eqn:Hi;
          [|done].
        simpl. case_decide; [|done]. subst n. intros [= <-].
        by constructor.
  - destruct b; [done|]. destruct f; try done.
    case_decide; [|done]. intros [= <-]. by constructor.
Qed.

Lemma executar_eventos_alcancavel evs s s' :
  alcancavel N s → executar_eventos N evs s = Some s' → alcancavel N s'.
Proof.
  revert s. induction evs as [|ev evs IH]; intros s Hs; simpl.
  - by intros [= <-].
  - destruct (passo_f N ev s) as [s1|] eqn:H1; [|done]. simpl.
    apply IH. econstructor; [done|]. by apply passo_f_sound.
Qed.

(** C6. In every state that the semaphore protocol of a game of [N]
    players can reach, the number of available permits lies between 0 and
    the current number of seats, which is itself at most [N - 1], under
    the maximum [N] the semaphore is declared with. In particular every
    [release] leaves the count within the seat count, and right after the
    release of [iniciar_rodada] the count equals the number of seats,
    which is [num_jogadores_ - 1]. *)
Theorem cadeira_sem_limites (s : Protocolo) :
  alcancavel N s →
  0 ≤ cadeira_sem (p_mundo s)
    ≤ Z.of_nat (length (cadeiras_ (jogo (p_mundo s)))) ∧
  Z.of_nat (length (cadeiras_ (jogo (p_mundo s)))) ≤ N - 1 ∧
  (∀ n s', passo N s (EvRelease n) s' →
     cadeira_sem (p_mundo s') = cadeira_sem (p_mundo s) + n ∧
     cadeira_sem (p_mundo s')
       ≤ Z.of_nat (length (cadeiras_ (jogo (p_mundo s'))))) ∧
  (∀ n s', p_fase s = Fechar → passo N s (EvRelease n) s' →
     cadeira_sem (p_mundo s')
       = Z.of_nat (length (cadeiras_ (jogo (p_mundo s')))) ∧
     cadeira_sem (p_mundo s') = num_jogadores_ (jogo (p_mundo s')) - 1 ∧
     Z.of_nat (p_correndo s') = num_jogadores_ (jogo (p_mundo s'))).
Proof.
  intros Halc. pose proof (alcancavel_inv_protocolo _ Halc) as Hinv.
  assert (∀ t, inv_protocolo N t →
            0 ≤ cadeira_sem (p_mundo t)
              ≤ Z.of_nat (length (cadeiras_ (jogo (p_mundo t)))) ∧
            Z.of_nat (length (cadeiras_ (jogo (p_mundo t)))) ≤ N - 1)
    as Hlim.
  { intros t (Hsem0 & Hb & Hf). destruct (p_fase t), (p_sonda t); lia. }
  destruct (Hlim _ Hinv) as [Hs Hc].
  split_and!; [apply Hs|apply Hs|done| |].
  - intros n s' Hp.
    pose proof (passo_inv_protocolo _ _ _ Hinv Hp) as Hinv'.
    split; [|apply (Hlim _ Hinv')].
    inversion Hp; subst; simpl; unfold sem_release; try done.
    match goal with H : iniciar_rodada _ _ = Some _ |- _ =>
      apply iniciar_rodada_seguinte in H as (Hn & _ & Hs1) end.
    + simpl in *. rewrite Hs1, Hn. done.
    + destruct Hinv as (_ & _ & Hf). simpl in *. lia.
  - intros n s' Hfe Hp.
    pose proof Hinv as (_ & Hb0 & Hf0).
    pose proof (passo_inv_protocolo _ _ _ Hinv Hp) as (Hsem0 & Hb & Hf).
    inversion Hp; subst; simpl in *; try done.
    + specialize (Hb0 eq_refl). by subst f.
    + lia.
Qed.
End ProtocoloProps.

Lemma protocolo_exemplo :
  ∃ s, executar_eventos NUM_JOGADORES eventos_exemplo
         (Protocolo_inicial NUM_JOGADORES) = Some s ∧
       alcancavel NUM_JOGADORES s ∧
       p_fase s = Encerrado ∧
       num_jogadores_ (jogo (p_mundo s)) = 1 ∧
       jogo_ativo (p_mundo s) = false.
Proof.
  eexists. split; [vm_compute; reflexivity|]. split; [|done].
  eapply (executar_eventos_alcancavel NUM_JOGADORES eventos_exemplo).
  - apply alcancavel_inicio.
  - vm_compute. reflexivity.
Qed.

Lemma cadeira_sem_limites_witness :
  ∃ s, executar_eventos NUM_JOGADORES (take 12 eventos_exemplo)
         (Protocolo_inicial NUM_JOGADORES) = Some s ∧
       0 ≤ cadeira_sem (p_mundo s)
         ≤ Z.of_nat (length (cadeiras_ (jogo (p_mundo s)))).
Proof.
  eexists. split; [vm_compute; reflexivity|].
  refine (proj1 (cadeira_sem_limites NUM_JOGADORES _ _ _)).
  - unfold NUM_JOGADORES. lia.
  - eapply (executar_eventos_alcancavel NUM_JOGADORES
              (take 12 eventos_exemplo)).
    + apply alcancavel_inicio.
    + vm_compute. reflexivity.
Defined.

(** ** The order of the two stores that end the game *)

Lemma posicao_app_notin a l1 l2 :
  a ∉ l1 → posicao a (l1 ++ l2) = (λ i, length l1 + i)%nat <$> posicao a l2.
Proof.
  intros Hn. unfold posicao.
  induction l1 as [|x l1 IH]; simpl.
  - by destruct (list_find _ l2) as [[? ?]|].
  - apply not_elem_of_cons in Hn as [Hx Hn].
    rewrite decide_False by done.
    specialize (IH Hn).
    destruct (list_find (λ i, i = a) (l1 ++ l2)) as [[? ?]|];
      destruct (list_find (λ i, i = a) l2) as [[? ?]|];
      simpl in *; by simplify_eq.
Qed.

Lemma sondagem_codigo_sem_flags n :
  Forall (λ i, i ≠ ISetJogoAtivo false ∧ i ≠ ISetMusicaParada false)
         (sondagem_codigo n).
Proof.
  induction n as [|n IH]; simpl; repeat constructor; done.
Qed.

(** Up to the test of line 276 the coordinator stores to neither flag in the
    way the end of the game does. *)
Lemma coordenador_prefixo_sem_fim primeira p1 p2 :
  Forall (λ i, i ≠ ISetJogoAtivo false ∧ i ≠ ISetMusicaParada false)
    ([ILerJogoAtivo] ++ iniciar_rodada_codigo primeira ++ [ISleep] ++
     parar_musica_codigo ++ sondagem_codigo p1 ++ [IJogo MEliminarJogador] ++
     [ISemRelease] ++ sondagem_codigo p2 ++ [IJogo MExibirEstado] ++
     [IJogo MGetNumJogadores]).
Proof.
  repeat (apply Forall_app; split);
    try apply sondagem_codigo_sem_flags;
    try (destruct primeira; simpl);
    repeat constructor; done.
Qed.

Lemma coordenador_iteracao_final primeira p1 p2 :
  ∃ prefixo,
    coordenador_iteracao primeira true p1 p2 = prefixo ++ fim_de_jogo_codigo ∧
    (ISetJogoAtivo false ∉ prefixo) ∧ (ISetMusicaParada false ∉ prefixo).
Proof.
  eexists. split.
  - unfold coordenador_iteracao. rewrite !(assoc_L (++)). reflexivity.
  - rewrite <- !(assoc_L (++)).
    pose proof (coordenador_prefixo_sem_fim primeira p1 p2) as HF.
    rewrite Forall_forall in HF.
    split; intros H; destruct (HF _ H) as [? ?]; done.
Qed.

(** In the last iteration the flag is cleared first and the music restarts
    second, whatever the round and however long the polls. *)
Lemma jogo_ativo_antes_de_comecar_musica primeira p1 p2 :
  ocorre_antes (ISetJogoAtivo false) (ISetMusicaParada false)
    (coordenador_iteracao primeira true p1 p2) = true ∧
  ocorre_antes (ISetMusicaParada false) (ISetJogoAtivo false)
    (coordenador_iteracao primeira true p1 p2) = false.
Proof.
  destruct (coordenador_iteracao_final primeira p1 p2)
    as (prefixo & -> & Hja & Hmp).
  unfold ocorre_antes. rewrite !posicao_app_notin by done.
  simpl. split; apply bool_decide_eq_true || apply bool_decide_eq_false; lia.
Qed.

(** With the two stores in the other order a player can be left waiting for
    a music stop that never comes: it wakes up when the music restarts,
    still sees [jogo_ativo], goes back to wait for the next stop, and the
    coordinator leaves. *)
Lemma fim_de_jogo_invertido_bloqueia (w : Mundo) :
  musica_parada w = true → jogo_ativo w = true →
  ∃ c, rtc passo_final (MkFinal w fim_de_jogo_invertido EsperaRecomecar) c ∧
       (∀ c', ¬ passo_final c c') ∧
       fi_coordenador c = [] ∧
       fi_pc c = EsperaParar ∧
       jogo_ativo (fi_mundo c) = false.
Proof.
  intros Hmp Hja.
  exists (MkFinal (com_jogo_ativo false (com_musica_parada false w))
                  [] EsperaParar).
  split_and!; try done.
  - unfold fim_de_jogo_invertido, comecar_musica_codigo. simpl.
    do 2 (eapply rtc_l; [apply passo_final_coordenador|]). simpl.
    eapply rtc_l; [by apply (passo_final_jogador _ _ _ NoTopo)|].
    eapply rtc_l.
    { apply (passo_final_jogador _ _ _ EsperaParar). simpl. by rewrite Hja. }
    do 5 (eapply rtc_l; [apply passo_final_coordenador|]). simpl.
    apply rtc_refl.
  - intros c' Hp. inversion Hp; subst. simpl in *. done.
Qed.

(** C7 (as the claim has it). In the last iteration of the second round of
    the source, with polls that fail at once, the music is not restarted
    before [jogo_ativo] is cleared: counting from 0, the store to
    [jogo_ativo] is instruction 16 and the store that restarts the music is
    instruction 20. *)
Lemma comecar_musica_antes_de_jogo_ativo_refuted :
  ocorre_antes (ISetMusicaParada false) (ISetJogoAtivo false)
    (coordenador_iteracao false true 0 0) ≠ true ∧
  posicao (ISetJogoAtivo false) (coordenador_iteracao false true 0 0)
    = Some 16%nat ∧
  posicao (ISetMusicaParada false) (coordenador_iteracao false true 0 0)
    = Some 20%nat.
Proof. vm_compute. split_and!; done. Qed.

(** ** Which calls into the game object hold the mutex *)

(** C8 (what the code does). Of the calls a player makes into the game
    object, [pegar_cadeira] is made with [music_mutex] held and
    [add_jogador_eliminado] is made without it; the coordinator makes all
    its calls without it. In the first round of the game of four, once the
    player let through by [liberar_threads_eliminadas] has taken its permit
    and failed its claim, the second poll of the coordinator already ends,
    and [exibir_estado] then reads the last element of a log to which that
    player has not yet added itself. *)
Theorem add_jogador_eliminado_desprotegido :
  protegido false tentar_ocupar_cadeira_codigo = true ∧
  desprotegidos false (joga_iteracao true) = [] ∧
  desprotegidos false (joga_iteracao false) = [MAddJogadorEliminado] ∧
  protegido false (joga_iteracao false) = false ∧
  desprotegidos false (coordenador_iteracao false true 0 0) =
    [MIniciarRodada; MEliminarJogador; MExibirEstado; MGetNumJogadores;
     MGetIdVencedor] ∧
  ∃ w3 g4 w6,
    correr [1; 2; 3; 4] (parar_musica (Mundo_inicial NUM_JOGADORES))
      = (w3, [4]) ∧
    aguardar_sem w3 = Some w3 ∧
    eliminar_jogador (jogo w3) = Some g4 ∧
    tentar_ocupar_cadeira 4 (liberar_threads_eliminadas (com_jogo g4 w3))
      = Some (false, w6) ∧
    aguardar_sem w6 = Some w6 ∧
    jogadores_eliminados_ (jogo w6) = [] ∧
    exibir_estado (jogo w6) = None ∧
    exibir_estado (add_jogador_eliminado 4 (jogo w6)) ≠ None.
Proof.
  split_and!; try reflexivity.
  do 3 eexists. split_and!; try (vm_compute; reflexivity).
  vm_compute. done.
Qed.

(** ** The program in every interleaving *)

(** Clearing and then removing a seat. *)
Lemma remover_esvaziar g :
  cadeiras_ g ≠ [] →
  remover_cadeira (esvaziar_cadeiras g) =
  Some {| num_jogadores_ := num_jogadores_ g;
          cadeiras_ := replicate (length (cadeiras_ g) - 1) Cadeira_new;
          jogadores_eliminados_ := jogadores_eliminados_ g |}.
Proof.
  intros Hne. unfold remover_cadeira. rewrite esvaziar_cadeiras_replicate.
  destruct (cadeiras_ g) as [|c cs]; [done|].
  cbn [length]. rewrite pop_back_replicate. simpl.
  by rewrite Nat.sub_0_r.
Qed.

(** A player that takes a permit keeps the bookkeeping of the coordinator. *)
Lemma inv_coord_acquire N pc k n c s mp ja :
  inv_coord N pc k n c s mp ja → 0 < s →
  inv_coord N pc k n c (s - 1) mp ja.
Proof.
  destruct pc as [| | | | | |[]|[]| | | | | | | |]; simpl; intros H Hs;
    intuition lia.
Qed.

(** What a statement of a player can change: the seats' contents, the log,
    and the counter, which [acquire] lowers by one. *)
Lemma passo_thread_jogador_efeito id pc w pc' w' :
  passo_thread_jogador id pc w = Avanca (pc', w') →
  musica_parada w' = musica_parada w ∧
  jogo_ativo w' = jogo_ativo w ∧
  num_jogadores_ (jogo w') = num_jogadores_ (jogo w) ∧
  length (cadeiras_ (jogo w')) = length (cadeiras_ (jogo w)) ∧
  (cadeira_sem w' = cadeira_sem w ∨
   (pc = JAcquire ∧ 0 < cadeira_sem w ∧
    cadeira_sem w' = cadeira_sem w - 1)) ∧
  (jogo_ativo w = true → musica_parada w = false →
   pc = JTopo ∨ pc = JEsperaParar → pc' = JEsperaParar ∧ w' = w).
Proof.
  destruct pc; simpl.
  - destruct (jogo_ativo w) eqn:Hja; intros [= <- <-]; simpl;
      split_and!; try done; auto.
  - destruct (musica_parada w) eqn:Hmp; [|done]. intros [= <- <-].
    split_and!; try done; auto.
  - unfold sem_acquire. case_decide; [|done]. intros [= <- <-]. simpl.
    split_and!; try done; [auto|]. intros _ _ [|]; done.
  - intros [= <- <-]. simpl. rewrite pegar_cadeira_loop_length.
    split_and!; try done; [auto|]. intros _ _ [|]; done.
  - destruct (musica_parada w) eqn:Hmp; [done|]. intros [= <- <-].
    split_and!; try done; [auto|]. intros _ _ [|]; done.
  - intros [= <- <-]. simpl. split_and!; try done; [auto|].
    intros _ _ [|]; done.
  - done.
Qed.

(** The two statements of [tentar_ocupar_cadeira], run one after the other
    with nothing in between, are the call as a whole. *)
Lemma passo_thread_tentar_ocupar_cadeira id w :
  match tentar_ocupar_cadeira id w with
  | Some (ret, w') =>
      ∃ w1, passo_thread_jogador id JAcquire w = Avanca (JPegar, w1) ∧
            passo_thread_jogador id JPegar w1 =
              Avanca (if ret then JEsperaRecomecar else JRegistrar, w')
  | None => passo_thread_jogador id JAcquire w = Bloqueado
  end.
Proof.
  unfold tentar_ocupar_cadeira. simpl.
  destruct (sem_acquire (cadeira_sem w)) as [c|]; simpl; [|done].
  by eexists.
Qed.

(** The statements of [iniciar_rodada], run by the coordinator with nothing
    in between, are the call as a whole. *)
Lemma passo_coordenador_iniciar_rodada N w w' jogs k v :
  iniciar_rodada_def N w = Some w' →
  executar_prog N
    (if decide (num_jogadores_ (jogo w) < N)
     then [TCoord; TCoord; TCoord; TCoord] else [TCoord])
    (MkPrograma w CIniciar jogs k v) =
  Some (MkPrograma w' CParar jogs k v).
Proof.
  unfold iniciar_rodada_def. case_decide as Hn.
  - destruct (remover_cadeira (esvaziar_cadeiras (jogo w))) as [g|] eqn:Hg;
      [|done]. simpl.
    destruct (sem_release_def N (num_jogadores_ g - 1) (cadeira_sem w))
      as [c|] eqn:Hc; [|done]. simpl. intros [= <-].
    unfold passo_coordenador. simpl. rewrite decide_True by done. simpl.
    rewrite Hg. simpl. rewrite Hc. done.
  - intros [= <-]. simpl. unfold passo_coordenador. simpl.
    by rewrite decide_False by done.
Qed.

(** A schedule that runs is an interleaving. *)
Lemma executar_prog_rtc N ts : ∀ p p',
  executar_prog N ts p = Some p' → rtc (passo_rel N) p p'.
Proof.
  induction ts as [|t ts IH]; intros p p' H; simpl in H.
  - injection H as <-. apply rtc_refl.
  - destruct (passo_prog N t p) as [p1| |] eqn:Hp; [|done|done].
    eapply rtc_l; [by exists t|by apply IH].
Qed.

(** Closes the goals of [inv_prog] that arithmetic and the positions of the
    coordinator decide. *)
Ltac fim_inv :=
  unfold inv_prog, silencio; simpl;
  split_and!; try done; try lia; try tauto;
  try (intros [?|[_ [|]]]; [lia|done|done]).

Section ProgramaProps.
Context (N : Z) (HN : 2 ≤ N).

Lemma inv_prog_inicial : inv_prog N (Programa_inicial N).
Proof using HN.
  unfold inv_prog, Programa_inicial. simpl.
  rewrite length_replicate.
  split_and!; try done; try lia.
  all: try (left; lia).
  - rewrite <- list_fmap_compose. apply list_fmap_id.
  - intros _. unfold antes_da_corrida. simpl. split_and!; try done.
    apply Forall_fmap, Forall_forall. intros x _. by left.
Qed.

Lemma silencio_flags p :
  inv_prog N p → silencio p →
  jogo_ativo (pr_mundo p) = true ∧ musica_parada (pr_mundo p) = false.
Proof using HN.
  intros (_ & _ & Hc & _) Hs.
  destruct Hs as [Hk|[Hk [Hpc|Hpc]]].
  - destruct (pr_coord p) as [| | | | | |[]|[]| | | | | | | |]; simpl in Hc;
      try (rewrite Hk in Hc; simpl in Hc; lia).
    rewrite Hk in Hc. destruct Hc as (? & _ & [(_ & _ & _ & ?)|?]); [done|lia].
  - rewrite Hpc in Hc. simpl in Hc. tauto.
  - rewrite Hpc in Hc. simpl in Hc. tauto.
Qed.

Lemma passo_coordenador_inv p p' :
  inv_prog N p → passo_coordenador N p = Avanca p' → inv_prog N p'.
Proof using HN.
  intros (Hs & Hids & Hc & Hq) Hp.
  destruct p as [[[n cs log] s mp ja atv] pc jogs k v].
  unfold passo_coordenador in Hp. unfold silencio, antes_da_corrida in Hq.
  simpl in *.
  destruct pc as [| | | | | |[]|[]| | | | | | | |]; simpl in *.
  - (* CTopo *)
    destruct Hc as (-> & Hsc & Hk). destruct ja.
    + injection Hp as <-. unfold inv_prog, silencio, antes_da_corrida. simpl.
      split_and!; try done.
      * destruct Hk as [(Hk & -> & Hc & _)|(Hk & Hn & Hc & -> & H1 & Hja)].
        -- left. lia.
        -- right. symmetry in Hja. apply bool_decide_eq_true in Hja. lia.
      * intros [Hk'|[Hk' _]]; [lia|]. apply Hq. left. lia.
    + injection Hp as <-. unfold inv_prog, silencio, antes_da_corrida. simpl.
      destruct Hk as [(_ & _ & _ & ?)|(Hk & Hn & Hc & -> & H1 & Hja)]; [done|].
      symmetry in Hja. apply bool_decide_eq_false in Hja.
      apply dec_stable in Hja.
      split_and!; try done; try lia.
      intros [Hk'|[_ [|]]]; [lia|done|done].
  - (* CIniciar *)
    destruct Hc as (-> & -> & Hsc & Hk).
    destruct Hk as [(Hk & -> & Hc)|(Hk & Hn & Hc & -> & H2)].
    + rewrite decide_False in Hp by lia. injection Hp as <-.
      unfold inv_prog, silencio, antes_da_corrida. simpl.
      split_and!; try done; try lia.
      intros [Hk'|[Hk' _]]; [lia|]. apply Hq. right. split; [lia|by left].
    + rewrite decide_True in Hp by lia. injection Hp as <-. fim_inv.
  - (* CEsvaziar *)
    injection Hp as <-. unfold inv_prog, silencio. simpl.
    rewrite length_fmap. fim_inv.
  - (* CRemover *)
    unfold remover_cadeira in Hp. simpl in Hp.
    destruct (pop_back cs) as [cs'|] eqn:Hpop; [|done].
    apply pop_back_sublist in Hpop as [_ Hl].
    simpl in Hp. injection Hp as <-. fim_inv.
  - (* CRelease *)
    unfold sem_release_def, sem_release in Hp.
    rewrite decide_True in Hp by lia. injection Hp as <-. fim_inv.
  - (* CParar *)
    injection Hp as <-. fim_inv.
  - (* CSonda true *)
    unfold sem_try_acquire in Hp. simpl in Hp.
    case_decide; simpl in Hp; injection Hp as <-; fim_inv.
  - (* CSonda false *)
    unfold sem_try_acquire in Hp. simpl in Hp.
    case_decide; simpl in Hp; injection Hp as <-; fim_inv.
  - (* CDevolve true *)
    unfold sem_release_def, sem_release in Hp.
    rewrite decide_True in Hp by lia. injection Hp as <-. fim_inv.
  - (* CDevolve false *)
    unfold sem_release_def, sem_release in Hp.
    rewrite decide_True in Hp by lia. injection Hp as <-. fim_inv.
  - (* CEliminar *)
    unfold eliminar_jogador in Hp. simpl in Hp.
    rewrite decide_True in Hp by (unfold INT_MIN; lia). injection Hp as <-.
    fim_inv.
  - (* CLiberar *)
    unfold sem_release_def, sem_release in Hp.
    rewrite decide_True in Hp by lia. injection Hp as <-. fim_inv.
  - (* CExibir *)
    destruct (exibir_estado _); [|done]. injection Hp as <-. fim_inv.
  - (* CTeste *)
    unfold get_num_jogadores in Hp. simpl in Hp.
    case_decide; injection Hp as <-; fim_inv.
    destruct Hc as (_ & -> & _). symmetry. by apply bool_decide_eq_true.
  - (* CFimAtivo *)
    injection Hp as <-. fim_inv.
  - (* CVencedor *)
    destruct (get_id_vencedor _); [|done]. injection Hp as <-. fim_inv.
    destruct Hc as (_ & -> & _ & _ & _ & -> & _). done.
  - (* CComecar *)
    injection Hp as <-. fim_inv.
  - done.
Qed.

Lemma ids_insert (jogs : list (Z * PcJ)) i id pc pc' :
  jogs !! i = Some (id, pc) → (<[i := (id, pc')]> jogs).*1 = jogs.*1.
Proof.
  intros Hi. rewrite list_fmap_insert. simpl.
  apply list_insert_id. by rewrite list_lookup_fmap, Hi.
Qed.

Lemma passo_jogador_inv i p p' :
  inv_prog N p → passo_prog N (TJog i) p = Avanca p' → inv_prog N p'.
Proof using HN.
  intros Hinv Hp. pose proof Hinv as (Hs & Hids & Hc & Hq).
  unfold passo_prog in Hp.
  destruct (pr_jogs p !! i) as [[id pc]|] eqn:Hi; [|done].
  destruct (passo_thread_jogador id pc (pr_mundo p)) as [[pc' w']| |] eqn:Ht;
    [|done|done].
  injection Hp as <-.
  destruct (passo_thread_jogador_efeito _ _ _ _ _ Ht)
    as (Hmp & Hja & Hn & Hl & Hsem & Hant).
  unfold inv_prog. simpl. rewrite Hmp, Hja, Hn, Hl.
  split_and!.
  - destruct Hsem as [->|(_ & ? & ->)]; lia.
  - by erewrite ids_insert.
  - destruct Hsem as [->|(_ & ? & ->)]; [done|by apply inv_coord_acquire].
  - intros Hsil.
    assert (silencio p) as Hsil' by exact Hsil.
    destruct (silencio_flags _ Hinv Hsil') as [Hja1 Hmp1].
    destruct (Hq Hsil') as (HF & Hcs & Hsm & Hlog).
    assert (pc = JTopo ∨ pc = JEsperaParar) as Hpc.
    { rewrite Forall_lookup in HF. exact (HF _ _ Hi). }
    destruct (Hant Hja1 Hmp1 Hpc) as [-> ->].
    unfold antes_da_corrida. simpl. split_and!; try done.
    apply Forall_insert; [done|]. by right.
Qed.

Lemma passo_rel_inv p p' : inv_prog N p → passo_rel N p p' → inv_prog N p'.
Proof using HN.
  intros Hinv [[|i] Hp].
  - by eapply passo_coordenador_inv.
  - by eapply passo_jogador_inv.
Qed.

Lemma rtc_passo_rel_inv p p' :
  inv_prog N p → rtc (passo_rel N) p p' → inv_prog N p'.
Proof using HN.
  intros Hinv Hrtc. induction Hrtc as [|p1 p2 p3 Hp _ IH]; [done|].
  apply IH. by eapply passo_rel_inv.
Qed.

Lemma alcanca_prog_inv p : alcanca_prog N p → inv_prog N p.
Proof using HN. apply rtc_passo_rel_inv, inv_prog_inicial. Qed.




Lemma passo_thread_jogador_definido id pc w :
  passo_thread_jogador id pc w ≠ Indefinido.
Proof.
  destruct pc; simpl; try done.
  - by destruct (jogo_ativo w).
  - by destruct (musica_parada w).
  - by destruct (sem_acquire _).
  - by destruct (musica_parada w).
Qed.

(** Every statement of the coordinator is defined, the [back()] of
    [exibir_estado] on an empty log apart. *)
Lemma passo_coordenador_definido p :
  inv_prog N p →
  pr_coord p ≠ CSaiu →
  (pr_coord p = CExibir →
   jogadores_eliminados_ (jogo (pr_mundo p)) ≠ []) →
  ∃ p', passo_coordenador N p = Avanca p'.
Proof using HN.
  intros (Hs & _ & Hc & _) Hsaiu Hlog.
  destruct p as [[[n cs log] s mp ja atv] pc jogs k v].
  unfold passo_coordenador. simpl in *.
  destruct pc as [| | | | | |[]|[]| | | | | | | |]; simpl in *; try done;
    try (by eexists).
  - by destruct ja; eexists.
  - destruct cs as [|c0 cs]; [simpl in Hc; lia|]. by eexists.
  - unfold sem_release_def. rewrite decide_True by lia. by eexists.
  - by destruct (sem_try_acquire s).1; eexists.
  - by destruct (sem_try_acquire s).1; eexists.
  - unfold sem_release_def. rewrite decide_True by lia. by eexists.
  - unfold sem_release_def. rewrite decide_True by lia. by eexists.
  - unfold eliminar_jogador. simpl.
    rewrite decide_True by (unfold INT_MIN; lia). by eexists.
  - unfold sem_release_def. rewrite decide_True by lia. by eexists.
  - unfold exibir_estado. simpl.
    destruct (last log) eqn:Hl; [by eexists|].
    apply last_None in Hl. by destruct Hlog.
  - destruct cs as [|c0 cs]; [simpl in Hc; lia|]. by eexists.
Qed.

(** The statements of [iniciar_rodada], in every interleaving: each is
    defined when the coordinator reaches it. In the first iteration the test
    of line 93 fails and nothing changes. Later [esvaziar_cadeiras] leaves
    every seat empty, [remover_cadeira] removes one seat, and the [release]
    finds the counter at 0 and leaves as many permits as seats. *)
Lemma passo_iniciar_rodada p :
  inv_prog N p →
  let w := pr_mundo p in
  (pr_coord p = CIniciar →
   ∃ p', passo_prog N TCoord p = Avanca p' ∧
         pr_mundo p' = w ∧
         (pr_rodada p = 1%nat → pr_coord p' = CParar) ∧
         (pr_rodada p ≠ 1%nat → pr_coord p' = CEsvaziar)) ∧
  (pr_coord p = CEsvaziar →
   ∃ p', passo_prog N TCoord p = Avanca p' ∧
         pr_coord p' = CRemover ∧
         Forall (λ c, get_id_jogador c = 0) (cadeiras_ (jogo (pr_mundo p'))) ∧
         length (cadeiras_ (jogo (pr_mundo p'))) =
           length (cadeiras_ (jogo w))) ∧
  (pr_coord p = CRemover →
   ∃ p', passo_prog N TCoord p = Avanca p' ∧
         pr_coord p' = CRelease ∧
         remover_cadeira (jogo w) = Some (jogo (pr_mundo p')) ∧
         S (length (cadeiras_ (jogo (pr_mundo p')))) =
           length (cadeiras_ (jogo w))) ∧
  (pr_coord p = CRelease →
   cadeira_sem w = 0 ∧
   ∃ p', passo_prog N TCoord p = Avanca p' ∧
         pr_coord p' = CParar ∧
         jogo (pr_mundo p') = jogo w ∧
         cadeira_sem (pr_mundo p') = num_jogadores_ (jogo w) - 1 ∧
         cadeira_sem (pr_mundo p') =
           Z.of_nat (length (cadeiras_ (jogo w)))).
Proof using HN.
  intros (Hs & _ & Hc & Hq).
  destruct p as [[[n cs log] s mp ja atv] pc jogs k v].
  unfold passo_prog, passo_coordenador. simpl in *.
  split_and!; intros ->; simpl in *.
  - eexists. split; [done|]. simpl. split; [done|].
    destruct Hc as (_ & _ & _ & [(Hk & -> & _)|(Hk & Hn & _)]).
    + rewrite decide_False by lia. split; [done|]. lia.
    + rewrite decide_True by lia. split; [lia|done].
  - eexists. split; [done|]. simpl. rewrite length_fmap.
    split_and!; try done.
    apply Forall_fmap, Forall_forall. by intros x _.
  - unfold remover_cadeira. simpl.
    destruct cs as [|c0 cs]; [simpl in Hc; lia|].
    eexists. split; [done|]. simpl. split_and!; try done.
    rewrite length_take. simpl. lia.
  - unfold sem_release_def, sem_release.
    rewrite decide_True by lia. split; [lia|].
    eexists. split; [done|]. simpl. split_and!; try done; lia.
Qed.

(** The numbers the coordinator writes, by its position. *)
Lemma inv_prog_numeros p :
  inv_prog N p →
  let w := pr_mundo p in
  let k := Z.of_nat (pr_rodada p) in
  let n := num_jogadores_ (jogo w) in
  let c := Z.of_nat (length (cadeiras_ (jogo w))) in
  k ≤ N - 1 ∧
  1 ≤ n ≤ N ∧
  0 ≤ cadeira_sem w ≤ c ∧ c ≤ N - 1 ∧
  (n = N - k ∨ n = N - (k - 1)) ∧
  (c = n ∨ c = n - 1) ∧
  (jogo_ativo w = false → n = 1 ∧ k = N - 1) ∧
  (pr_coord p = CSaiu → jogo_ativo w = false) ∧
  (pr_coord p = CParar ∨ pr_coord p = CSonda false ∨
   pr_coord p = CDevolve false ∨ pr_coord p = CEliminar →
   1 ≤ k ∧ n = N - (k - 1) ∧ c = n - 1 ∧ jogo_ativo w = true) ∧
  (pr_coord p = CTeste → 1 ≤ k ∧ n = N - k ∧ jogo_ativo w = true).
Proof using HN.
  intros (Hs & _ & Hc & _). simpl.
  destruct p as [[[n cs log] s mp ja atv] pc jogs k v]. simpl in *.
  destruct pc as [| | | | | |[]|[]| | | | | | | |]; simpl in *;
    (split_and!; try done; try lia;
     try (intros Hja; subst ja);
     try (intros [|[|[|]]]; try done);
     try (intuition (try done; try lia); fail)).
  - destruct Hc as (_ & _ & [(_ & _ & _ & ?)|(? & ? & ? & ? & ? & Hb)]);
      [done|].
    symmetry in Hb. apply bool_decide_eq_false in Hb.
    apply dec_stable in Hb. lia.
  - destruct Hc as (_ & Hb & ? & ? & ? & ? & ?).
    symmetry in Hb. apply bool_decide_eq_false in Hb.
    apply dec_stable in Hb. lia.
Qed.
End ProgramaProps.

Lemma NUM_JOGADORES_2 : 2 ≤ NUM_JOGADORES.
Proof. unfold NUM_JOGADORES. lia. Qed.

Section FimDeJogo.
Context (N : Z) (HN : 2 ≤ N).

Lemma pc_jogador_insert p i j x id pc' w' pcc k v :
  pr_jogs p !! j = Some x →
  pc_jogador (MkPrograma w' pcc (<[j := (id, pc')]> (pr_jogs p)) k v) i =
  if decide (i = j) then Some pc' else pc_jogador p i.
Proof.
  intros Hj. unfold pc_jogador. simpl. case_decide as H.
  - subst. rewrite list_lookup_insert_eq; [done|]. by eapply lookup_lt_Some.
  - by rewrite list_lookup_insert_ne.
Qed.

Lemma passo_inv_fim i p t p' :
  inv_prog N p → inv_fim i p → passo_prog N t p = Avanca p' →
  inv_fim i p' ∧
  (if decide (t = TCoord ∨ t = TJog i)
   then S (medida_fim i p') = medida_fim i p
   else medida_fim i p' = medida_fim i p).
Proof using HN.
  intros Hinv [[Hn Hpc] Hi] Hp.
  pose proof Hinv as (Hs & Hids & Hc & _).
  destruct t as [|j].
  - (* the coordinator *)
    rewrite decide_True by (by left).
    destruct p as [[[n cs log] s mp ja atv] pc jogs k v].
    unfold inv_fim, fim_de_jogo, medida_fim, pc_jogador in *.
    simpl in *. subst n.
    unfold passo_coordenador in Hp. simpl in Hp.
    destruct Hpc as [-> | [-> | [-> | [-> | ->]]]]; simpl in *.
    + injection Hp as <-. simpl. split; [|done].
      split; [split; [done|tauto]|]. done.
    + destruct (get_id_vencedor _); [|done]. injection Hp as <-. simpl.
      split; [|done]. split; [split; [done|tauto]|]. done.
    + injection Hp as <-. simpl. split; [|done].
      split; [split; [done|tauto]|].
      destruct (jogs !! i) as [[? []]|]; done.
    + destruct Hc as (_ & _ & [(_ & ? & _)|(_ & _ & _ & _ & _ & Hja)]); [lia|].
      subst ja. injection Hp as <-. simpl. split; [|done].
      split; [split; [done|tauto]|]. done.
    + done.
  - (* a player *)
    unfold passo_prog in Hp.
    destruct (pr_jogs p !! j) as [[id pc]|] eqn:Hj; [|done].
    destruct (passo_thread_jogador id pc (pr_mundo p)) as [[pc' w']| |] eqn:Ht;
      [|done|done].
    injection Hp as <-.
    destruct (passo_thread_jogador_efeito _ _ _ _ _ Ht)
      as (Hmp & Hja & Hn' & _).
    unfold inv_fim, fim_de_jogo, medida_fim. simpl.
    rewrite (pc_jogador_insert _ _ _ _ _ _ _ _ _ _ Hj), Hmp, Hn'.
    destruct (decide (j = i)) as [->|Hji].
    + rewrite (decide_True (P := i = i)) by done.
      rewrite (decide_True (P := _ ∨ _)) by (by right).
      unfold pc_jogador in *. rewrite Hj in *. simpl in *.
      destruct pc; try done; simpl in Ht.
      * (* at the loop test the player sees the flag cleared *)
        assert (jogo_ativo (pr_mundo p) = false) as Hf.
        { destruct Hpc as [E|[E|[E|[E|E]]]]; rewrite E in Hc; simpl in Hc;
            try (destruct Hc as (Hc1 & _); congruence).
          - destruct Hc as (_ & _ & [(_ & ? & _)|(_ & _ & _ & _ & _ & Hb)]);
              [lia|].
            rewrite Hb. apply bool_decide_eq_false. intros H. by apply H.
          - tauto. }
        rewrite Hf in Ht. injection Ht as <- <-. simpl.
        split; [done|]. lia.
      * destruct (musica_parada (pr_mundo p)) eqn:E; [done|].
        injection Ht as <- <-. split; [done|]. simpl. lia.
    + rewrite (decide_False (P := i = j)) by done.
      rewrite (decide_False (P := _ ∨ _)) by (intros [|[=]]; done).
      split; [|done]. split; [done|].
      destruct (pc_jogador p i) as [[]|]; done.
Qed.

Lemma rtc_inv_fim i p p' :
  inv_prog N p → inv_fim i p → rtc (passo_rel N) p p' →
  inv_prog N p' ∧ inv_fim i p'.
Proof using HN.
  intros Hinv Hfim Hrtc. induction Hrtc as [|p1 p2 p3 Hp _ IH]; [done|].
  pose proof (passo_rel_inv _ HN _ _ Hinv Hp) as Hinv2.
  destruct Hp as [t Hp].
  destruct (passo_inv_fim _ _ _ _ Hinv Hfim Hp) as [Hfim2 _].
  by apply IH.
Qed.
End FimDeJogo.

(** C4. The game of four players, in every interleaving of the threads.
    The coordinator begins at most three iterations, and four player
    threads exist. In the first iteration [iniciar_rodada] changes nothing:
    until the music stops there are the 3 empty seats and the 3 permits of
    the construction, and none of the four threads has raced yet. In the
    later iterations every statement of [iniciar_rodada] is defined when
    the coordinator reaches it: the seats are cleared, one seat is removed,
    and the [release] finds no permit left and leaves as many permits as
    seats. While the players of a round race, that is from [parar_musica]
    to [eliminar_jogador], there are, in iterations 1, 2 and 3, 3 seats for
    4 players, then 2 for 3, then 1 for 2, the players being counted by
    [num_jogadores_]: always one seat less than players. [eliminar_jogador]
    is defined, takes one off the count and leaves the seats as they are.
    At the test of line 276 the count is [4 - k] in iteration [k]; it is 1
    exactly in the third, and the coordinator goes on to clear [jogo_ativo]
    exactly then. The flag is never cleared with another count, and the
    coordinator leaves its loop only with the flag cleared. *)
Theorem partida_de_quatro (p : Programa) :
  alcanca_prog NUM_JOGADORES p →
  let w := pr_mundo p in
  let n := num_jogadores_ (jogo w) in
  let c := Z.of_nat (length (cadeiras_ (jogo w))) in
  (pr_rodada p ≤ 3)%nat ∧
  length (pr_jogs p) = 4%nat ∧
  (pr_rodada p = 1%nat → pr_coord p = CIniciar ∨ pr_coord p = CParar →
   Forall (λ j, j.2 = JTopo ∨ j.2 = JEsperaParar) (pr_jogs p) ∧
   Forall (λ c, get_id_jogador c = 0) (cadeiras_ (jogo w)) ∧
   cadeira_sem w = 3) ∧
  (pr_coord p = CIniciar →
   ∃ p', passo_prog NUM_JOGADORES TCoord p = Avanca p' ∧
     pr_mundo p' = w ∧
     (pr_rodada p = 1%nat → pr_coord p' = CParar) ∧
     (pr_rodada p ≠ 1%nat → pr_coord p' = CEsvaziar)) ∧
  (pr_coord p = CEsvaziar →
   ∃ p', passo_prog NUM_JOGADORES TCoord p = Avanca p' ∧
     pr_coord p' = CRemover ∧
     Forall (λ c, get_id_jogador c = 0) (cadeiras_ (jogo (pr_mundo p'))) ∧
     length (cadeiras_ (jogo (pr_mundo p'))) = length (cadeiras_ (jogo w))) ∧
  (pr_coord p = CRemover →
   ∃ p', passo_prog NUM_JOGADORES TCoord p = Avanca p' ∧
     pr_coord p' = CRelease ∧
     S (length (cadeiras_ (jogo (pr_mundo p')))) =
       length (cadeiras_ (jogo w))) ∧
  (pr_coord p = CRelease →
   cadeira_sem w = 0 ∧
   ∃ p', passo_prog NUM_JOGADORES TCoord p = Avanca p' ∧
     pr_coord p' = CParar ∧
     jogo (pr_mundo p') = jogo w ∧
     cadeira_sem (pr_mundo p') = c) ∧
  (pr_coord p = CParar ∨ pr_coord p = CSonda false ∨
   pr_coord p = CDevolve false ∨ pr_coord p = CEliminar →
   [(3, 4); (2, 3); (1, 2)] !! (pr_rodada p - 1)%nat = Some (c, n) ∧
   c = n - 1) ∧
  (pr_coord p = CEliminar →
   ∃ p', passo_prog NUM_JOGADORES TCoord p = Avanca p' ∧
     num_jogadores_ (jogo (pr_mundo p')) = n - 1 ∧
     cadeiras_ (jogo (pr_mundo p')) = cadeiras_ (jogo w)) ∧
  (pr_coord p = CTeste →
   n = 4 - Z.of_nat (pr_rodada p) ∧
   (n = 1 ↔ pr_rodada p = 3%nat) ∧
   ∃ p', passo_prog NUM_JOGADORES TCoord p = Avanca p' ∧
     (pr_coord p' = CFimAtivo ↔ n = 1) ∧
     (pr_coord p' = CComecar ↔ n ≠ 1)) ∧
  (jogo_ativo w = false → n = 1 ∧ pr_rodada p = 3%nat) ∧
  (pr_coord p = CSaiu → jogo_ativo w = false).
Proof.
  intros Halc.
  pose proof (alcanca_prog_inv _ NUM_JOGADORES_2 _ Halc) as Hinv.
  pose proof (inv_prog_numeros _ NUM_JOGADORES_2 _ Hinv)
    as (Hk & Hn & Hs & Hc & Hnk & Hcn & Hja & Hsaiu & Hcorrida & Hteste).
  pose proof (passo_iniciar_rodada _ NUM_JOGADORES_2 _ Hinv)
    as (Hini & Hesv & Hrem & Hrel).
  simpl in *. unfold NUM_JOGADORES in Hk, Hn, Hc, Hnk, Hja, Hcorrida, Hteste.
  split_and!.
  - lia.
  - destruct Hinv as (_ & Hids & _).
    apply (f_equal length) in Hids.
    rewrite length_fmap, length_seqZ in Hids. rewrite Hids. done.
  - intros Hk1 Hpc.
    destruct Hinv as (_ & _ & _ & Hq).
    destruct Hq as (HF & Hcs & Hsem & _); [right; by split|].
    rewrite Hcs. split_and!; [done|by apply Forall_replicate|done].
  - done.
  - done.
  - intros Hpc. destruct (Hrem Hpc) as (p' & ? & ? & _ & ?). by exists p'.
  - intros Hpc. destruct (Hrel Hpc) as (? & p' & ? & ? & ? & _ & ?).
    split; [done|]. by exists p'.
  - intros Hpc. destruct (Hcorrida Hpc) as (? & Hn' & Hc' & _).
    split; [|done]. rewrite Hc', Hn'.
    destruct (pr_rodada p) as [|[|[|[|k]]]]; try done; lia.
  - intros Hpc.
    destruct (passo_coordenador_definido _ NUM_JOGADORES_2 _ Hinv)
      as [p' Hp]; [by rewrite Hpc|by rewrite Hpc|].
    exists p'. split; [done|].
    unfold passo_coordenador in Hp. rewrite Hpc in Hp.
    unfold eliminar_jogador in Hp. case_decide; [|done].
    injection Hp as <-. done.
  - intros Hpc. destruct (Hteste Hpc) as (? & ? & _).
    split_and!; [done|lia|].
    eexists. split.
    { simpl. unfold passo_coordenador. rewrite Hpc. done. }
    simpl. unfold get_num_jogadores. case_decide; split; split; done.
  - intros Hf. destruct (Hja Hf). lia.
  - done.
Qed.

Lemma partida_de_quatro_witness :
  ∃ p, executar_prog NUM_JOGADORES
         (rodada1_ordeira ++ rodada2_ordeira ++
          [TCoord; TCoord; TCoord; TCoord; TCoord])
         (Programa_inicial NUM_JOGADORES) = Some p ∧
       pr_coord p = CParar ∧ pr_rodada p = 3%nat ∧
       Some (Z.of_nat (length (cadeiras_ (jogo (pr_mundo p)))),
             num_jogadores_ (jogo (pr_mundo p))) = Some (1, 2).
Proof.
  eexists. split; [vm_compute; reflexivity|].
  split; [reflexivity|]. split; [reflexivity|].
  match goal with
  | |- context [pr_mundo ?p] =>
      destruct (partida_de_quatro p) as (_ & _ & _ & _ & _ & _ & _ & H & _)
  end.
  - apply (executar_prog_rtc NUM_JOGADORES
             (rodada1_ordeira ++ rodada2_ordeira ++
              [TCoord; TCoord; TCoord; TCoord; TCoord])).
    vm_compute. reflexivity.
  - destruct H as [H _]; [by left|]. symmetry. exact H.
Defined.

(** C3 (what the code does). The round step itself, [eliminar_jogador]
    followed by [add_jogador_eliminado], is defined, appends exactly one id
    to the log and lowers the count by exactly one. But its two halves are
    run by two threads, and the second poll of the coordinator waits for
    the loser's [acquire] only, not for its claim nor for its entry in the
    log. In the game of four there is a schedule in which the second
    iteration of the coordinator ends with the count lowered to 2 and the
    log still [4], so that [num_jogadores_ = 4 - length log] fails at the
    loop head: player 3 has taken the permit of
    [liberar_threads_eliminadas] and has not yet claimed. It claims after
    the [iniciar_rodada] of the third iteration has cleared the seats, gets
    the only seat, and is never logged; the third iteration then logs two
    players, 1 and 2. *)
Theorem rodada_sem_eliminacao :
  (∀ perdedor g, INT_MIN < num_jogadores_ g →
     ∃ g', eliminacao_da_rodada perdedor g = Some g' ∧
           jogadores_eliminados_ g' = jogadores_eliminados_ g ++ [perdedor] ∧
           num_jogadores_ g' = num_jogadores_ g - 1) ∧
  ∃ p2 p3 pf,
    executar_prog NUM_JOGADORES (rodada1_ordeira ++ rodada2_tardia)
      (Programa_inicial NUM_JOGADORES) = Some p2 ∧
    pr_coord p2 = CTopo ∧ pr_rodada p2 = 2%nat ∧
    num_jogadores_ (jogo (pr_mundo p2)) = 2 ∧
    jogadores_eliminados_ (jogo (pr_mundo p2)) = [4] ∧
    num_jogadores_ (jogo (pr_mundo p2)) ≠
      NUM_JOGADORES -
      Z.of_nat (length (jogadores_eliminados_ (jogo (pr_mundo p2)))) ∧
    pr_jogs p2 =
      [(1, JEsperaRecomecar); (2, JEsperaRecomecar); (3, JPegar);
       (4, JRetornou)] ∧
    executar_prog NUM_JOGADORES rodada3_inicio_tardio p2 = Some p3 ∧
    pr_coord p3 = CParar ∧ pr_rodada p3 = 3%nat ∧
    pc_jogador p3 2 = Some JEsperaRecomecar ∧
    cadeiras_ (jogo (pr_mundo p3)) = [MkCadeira 3] ∧
    jogadores_eliminados_ (jogo (pr_mundo p3)) = [4] ∧
    executar_prog NUM_JOGADORES rodada3_tardia p3 = Some pf ∧
    pr_coord pf = CSaiu ∧ pr_rodada pf = 3%nat ∧
    num_jogadores_ (jogo (pr_mundo pf)) = 1 ∧
    jogadores_eliminados_ (jogo (pr_mundo pf)) = [4; 1; 2].
Proof.
  split.
  - intros perdedor g Hg.
    destruct (eliminacao_da_rodada_correct 0 perdedor g Hg)
      as (g' & H1 & H2 & _ & H3 & _).
    by exists g'.
  - do 3 eexists.
    split_and!; try (vm_compute; reflexivity).
    vm_compute. done.
Qed.

(** C5 (what the code does). Whenever the coordinator is at line 279, in
    any interleaving of the game of four, one player is left by the count,
    there is exactly one seat, and [get_id_vencedor] is defined and returns
    the id on that seat, which is what is printed as the winner. That id
    need not be the id of a claim: there is a schedule in which both
    finalists have taken their permits and neither has run its
    [pegar_cadeira] when line 279 runs; the seat is empty and the winner
    printed is 0, which is no player's id. *)
Theorem get_id_vencedor_sem_reivindicacao :
  (∀ p, alcanca_prog NUM_JOGADORES p → pr_coord p = CVencedor →
     get_num_jogadores (jogo (pr_mundo p)) = 1 ∧
     ∃ v p', cadeiras_ (jogo (pr_mundo p)) = [MkCadeira v] ∧
             get_id_vencedor (jogo (pr_mundo p)) = Some v ∧
             passo_prog NUM_JOGADORES TCoord p = Avanca p' ∧
             pr_vencedor p' = Some v) ∧
  ∃ p p',
    executar_prog NUM_JOGADORES
      (rodada1_ordeira ++ rodada2_ordeira ++ rodada3_sem_reivindicar)
      (Programa_inicial NUM_JOGADORES) = Some p ∧
    pr_coord p = CVencedor ∧
    get_num_jogadores (jogo (pr_mundo p)) = 1 ∧
    jogo_ativo (pr_mundo p) = false ∧
    pr_jogs p =
      [(1, JPegar); (2, JPegar); (3, JRetornou); (4, JRetornou)] ∧
    cadeiras_ (jogo (pr_mundo p)) = [Cadeira_new] ∧
    get_id_vencedor (jogo (pr_mundo p)) = Some 0 ∧
    passo_prog NUM_JOGADORES TCoord p = Avanca p' ∧
    pr_vencedor p' = Some 0 ∧
    (0 ∉ (pr_jogs p).*1).
Proof.
  split.
  - intros p Halc Hpc.
    destruct (alcanca_prog_inv _ NUM_JOGADORES_2 _ Halc) as (_ & _ & Hc & _).
    rewrite Hpc in Hc. simpl in Hc.
    destruct Hc as (_ & _ & _ & _ & Hl & Hn & _).
    split; [done|].
    destruct (cadeiras_ (jogo (pr_mundo p))) as [|[v] [|c2 cs]] eqn:Hcs;
      simpl in Hl; try lia.
    exists v. eexists. split; [done|].
    unfold passo_prog, passo_coordenador, get_id_vencedor.
    rewrite Hpc, Hcs. simpl. done.
  - do 2 eexists.
    split_and!; try (vm_compute; reflexivity).
    simpl. rewrite !elem_of_cons, elem_of_nil.
    intros H; decompose [or] H; done.
Qed.

(** C7 (as the code has it). In the last iteration of the coordinator,
    whatever the round and the length of the polls, [jogo_ativo] is cleared
    before the music is restarted: at line 277 the flag is set and the
    music is stopped, and after line 277 the flag is clear and the music is
    still stopped. From line 277 on, in every interleaving of a game of [N]
    players and whatever the other players do, a player that waits for the
    music to restart never goes back to wait for another stop and never
    races again: it stays in its wait, or it is at the loop test, or it has
    returned, and once it has left the wait the flag is clear. The
    coordinator can run its next statement until it has left its loop;
    once the music has restarted the player can run its next statement
    until it has returned; every statement of either lowers by one the
    number of statements left to the two, which the other threads do not
    change; and when no thread can run any more, the coordinator has left
    its loop and the player has returned. *)
Theorem fim_de_jogo_libera_jogadores (N : Z) (i : nat) (p p' : Programa) :
  2 ≤ N →
  alcanca_prog N p →
  fim_de_jogo p →
  pc_jogador p i = Some JEsperaRecomecar →
  rtc (passo_rel N) p p' →
  (∀ primeira p1 p2,
     ocorre_antes (ISetJogoAtivo false) (ISetMusicaParada false)
       (coordenador_iteracao primeira true p1 p2) = true) ∧
  (pr_coord p = CFimAtivo →
   jogo_ativo (pr_mundo p) = true ∧ musica_parada (pr_mundo p) = true ∧
   ∃ q, passo_prog N TCoord p = Avanca q ∧ pr_coord q = CVencedor ∧
        jogo_ativo (pr_mundo q) = false ∧ musica_parada (pr_mundo q) = true) ∧
  fim_de_jogo p' ∧
  (pc_jogador p' i = Some JEsperaRecomecar ∨
   pc_jogador p' i = Some JTopo ∨
   pc_jogador p' i = Some JRetornou) ∧
  (pc_jogador p' i ≠ Some JEsperaRecomecar →
   jogo_ativo (pr_mundo p') = false ∧ musica_parada (pr_mundo p') = false) ∧
  (pr_coord p' ≠ CSaiu → ∃ p'', passo_prog N TCoord p' = Avanca p'') ∧
  (musica_parada (pr_mundo p') = false →
   pc_jogador p' i ≠ Some JRetornou →
   ∃ p'', passo_prog N (TJog i) p' = Avanca p'') ∧
  (∀ t p'', passo_prog N t p' = Avanca p'' →
     if decide (t = TCoord ∨ t = TJog i)
     then S (medida_fim i p'') = medida_fim i p'
     else medida_fim i p'' = medida_fim i p') ∧
  (parado N p' → pr_coord p' = CSaiu ∧ pc_jogador p' i = Some JRetornou).
Proof.
  intros HN Halc Hfim Hi Hrtc.
  pose proof (alcanca_prog_inv _ HN _ Halc) as Hinv.
  assert (inv_fim i p) as Hfi by (split; [done|by rewrite Hi]).
  destruct (rtc_inv_fim _ HN _ _ _ Hinv Hfi Hrtc) as [Hinv' [Hfim' Hpc']].
  assert (musica_parada (pr_mundo p') = false →
          jogo_ativo (pr_mundo p') = false ∧
          (pr_coord p' = CTopo ∨ pr_coord p' = CSaiu)) as Hmp.
  { intros Hm. destruct Hinv' as (_ & _ & Hc & _).
    destruct Hfim' as [Hn [E|[E|[E|[E|E]]]]]; rewrite E in Hc; simpl in Hc;
      try (destruct Hc as (Hc1 & _); congruence).
    - destruct Hc as (_ & _ & [(_ & ? & _)|(_ & _ & _ & _ & _ & Hb)]); [lia|].
      split; [|by left].
      rewrite Hb. apply bool_decide_eq_false. intros H. by apply H.
    - split; [tauto|by right]. }
  split_and!.
  - intros primeira p1 p2. apply jogo_ativo_antes_de_comecar_musica.
  - intros Hpc. destruct Hinv as (_ & _ & Hc & _). rewrite Hpc in Hc.
    simpl in Hc. split_and!; try tauto.
    eexists. split; [simpl; unfold passo_coordenador; by rewrite Hpc|].
    simpl. tauto.
  - done.
  - destruct (pc_jogador p' i) as [[]|]; try done; auto.
  - intros Hne. destruct (pc_jogador p' i) as [[]|]; try done;
      by destruct (Hmp Hpc').
  - intros Hs. apply (passo_coordenador_definido _ HN _ Hinv' Hs).
    intros E. destruct Hfim' as [_ [?|[?|[?|[?|?]]]]]; congruence.
  - intros Hm Hne. destruct (Hmp Hm) as [Hja _].
    unfold pc_jogador in *. simpl.
    destruct (pr_jogs p' !! i) as [[id []]|] eqn:Hl; simpl in *; try done.
    + rewrite Hja. by eexists.
    + rewrite Hm. by eexists.
  - intros t p'' Hp.
    by destruct (passo_inv_fim _ HN _ _ _ _ Hinv' (conj Hfim' Hpc') Hp).
  - intros Hpar.
    assert (pr_coord p' = CSaiu) as Hs.
    { destruct (decide (pr_coord p' = CSaiu)) as [|Hs]; [done|].
      destruct (passo_coordenador_definido _ HN _ Hinv' Hs) as [q Hq].
      - intros E. destruct Hfim' as [_ [?|[?|[?|[?|?]]]]]; congruence.
      - specialize (Hpar TCoord). simpl in Hpar. congruence. }
    split; [done|].
    assert (musica_parada (pr_mundo p') = false) as Hm.
    { destruct Hinv' as (_ & _ & Hc & _). rewrite Hs in Hc. simpl in Hc.
      tauto. }
    destruct (Hmp Hm) as [Hja _].
    specialize (Hpar (TJog i)). unfold pc_jogador in *. simpl in Hpar.
    destruct (pr_jogs p' !! i) as [[id []]|] eqn:Hl; simpl in *; try done.
    + by rewrite Hja in Hpar.
    + by rewrite Hm in Hpar.
Qed.

Lemma fim_de_jogo_libera_jogadores_witness :
  ∃ p p',
    executar_prog NUM_JOGADORES
      (rodada1_ordeira ++ rodada2_ordeira ++ rodada3_ordeira)
      (Programa_inicial NUM_JOGADORES) = Some p ∧
    pr_coord p = CFimAtivo ∧
    executar_prog NUM_JOGADORES fim_ordeiro p = Some p' ∧
    pr_coord p' = CSaiu ∧
    pc_jogador p' 0 = Some JRetornou ∧
    fim_de_jogo p'.
Proof.
  do 2 eexists.
  split; [vm_compute; reflexivity|]. split; [reflexivity|].
  split; [vm_compute; reflexivity|]. split; [reflexivity|].
  split; [reflexivity|].
  refine (proj1 (proj2 (proj2 (fim_de_jogo_libera_jogadores NUM_JOGADORES 0
            _ _ _ _ _ _ _)))).
  - unfold NUM_JOGADORES. lia.
  - apply (executar_prog_rtc NUM_JOGADORES
             (rodada1_ordeira ++ rodada2_ordeira ++ rodada3_ordeira)).
    vm_compute. reflexivity.
  - split; [reflexivity|by left].
  - reflexivity.
  - apply (executar_prog_rtc NUM_JOGADORES fim_ordeiro).
    vm_compute. reflexivity.
Defined.

(** * Further properties of the code *)

(** ** The game object *)

Lemma pegar_cadeira_loop_replicate id n :
  pegar_cadeira_loop id (replicate (S n) Cadeira_new) =
  (true, MkCadeira id :: replicate n Cadeira_new).
Proof. done. Qed.

(** X1. The constructor, for an argument that is an [int]. Its loop bound
    [num_jogadores - 1] overflows at [INT_MIN], where the behaviour is
    undefined, and nowhere else. Otherwise it makes [num_jogadores - 1]
    seats, all empty, and an empty log; the count is the argument as it is.
    With an argument of 1 or less there is no seat at all: the winner and
    the removal of a seat are undefined and every claim fails. With 2 or
    more, every first claim succeeds and the winner read before any claim
    is 0, the mark of an empty seat. *)
Theorem JogoDasCadeiras_new_correct (num_jogadores : Z) :
  INT_MIN ≤ num_jogadores ≤ INT_MAX →
  (JogoDasCadeiras_ctor num_jogadores = None ↔ num_jogadores = INT_MIN) ∧
  ∀ g, JogoDasCadeiras_ctor num_jogadores = Some g →
    num_jogadores_ g = num_jogadores ∧
    jogadores_eliminados_ g = [] ∧
    Z.of_nat (length (cadeiras_ g)) = Z.max 0 (num_jogadores - 1) ∧
    Forall (λ c, get_id_jogador c = 0) (cadeiras_ g) ∧
    num_ocupadas (cadeiras_ g) = 0%nat ∧
    exibir_estado g = None ∧
    (num_jogadores ≤ 1 →
       cadeiras_ g = [] ∧ get_id_vencedor g = None ∧
       remover_cadeira g = None ∧
       ∀ id, pegar_cadeira id g = (false, g)) ∧
    (2 ≤ num_jogadores →
       get_id_vencedor g = Some 0 ∧
       ∀ id, (pegar_cadeira id g).1 = true ∧
             get_id_vencedor (pegar_cadeira id g).2 = Some id).
Proof.
  intros Hint. unfold JogoDasCadeiras_ctor. split.
  - case_decide; split; try done; lia.
  - intros g Hg. case_decide; [|done]. injection Hg as <-.
    unfold JogoDasCadeiras_new. simpl.
    split_and!; try done.
    + rewrite length_replicate. lia.
    + by apply Forall_replicate.
    + unfold num_ocupadas. rewrite ocupantes_vazias; [done|].
      by apply Forall_replicate.
    + intros Hn. replace (Z.to_nat (num_jogadores - 1)) with 0%nat by lia.
      done.
    + intros Hn.
      destruct (Z.to_nat (num_jogadores - 1)) as [|n] eqn:E; [lia|].
      split; [done|]. intros id. unfold pegar_cadeira, get_id_vencedor.
      simpl. done.
Qed.

Lemma JogoDasCadeiras_new_correct_witness :
  ∃ g, JogoDasCadeiras_ctor NUM_JOGADORES = Some g ∧
       Z.of_nat (length (cadeiras_ g)) = 3.
Proof.
  eexists. split; [reflexivity|].
  refine (proj1 (proj2 (proj2 (proj2 (JogoDasCadeiras_new_correct
            NUM_JOGADORES _) _ eq_refl)))).
  vm_compute. split; discriminate.
Defined.

(** X2. [remover_cadeira] is defined exactly when there is a seat. It then
    removes the last seat and nothing else: the seats before it keep their
    place and their occupant, and the count and the log are unchanged. *)
Theorem remover_cadeira_correct (g : JogoDasCadeiras) :
  (remover_cadeira g = None ↔ cadeiras_ g = []) ∧
  (∀ g', remover_cadeira g = Some g' →
     (∃ c, cadeiras_ g = cadeiras_ g' ++ [c]) ∧
     S (length (cadeiras_ g')) = length (cadeiras_ g) ∧
     (∀ i c, cadeiras_ g' !! i = Some c → cadeiras_ g !! i = Some c) ∧
     num_jogadores_ g' = num_jogadores_ g ∧
     jogadores_eliminados_ g' = jogadores_eliminados_ g) ∧
  (∀ cs c n log,
     remover_cadeira (MkJogo n (cs ++ [c]) log) = Some (MkJogo n cs log)).
Proof.
  split_and!.
  - unfold remover_cadeira. destruct (cadeiras_ g); simpl; split; done.
  - intros g' Hr. unfold remover_cadeira in Hr.
    destruct (pop_back (cadeiras_ g)) as [cs|] eqn:Hp; simplify_eq/=.
    assert (∃ c, cadeiras_ g = cs ++ [c]) as [c Hc].
    { destruct (cadeiras_ g) as [|x l] eqn:E; [done|].
      injection Hp as <-. simpl.
      destruct (separa_ultimo (x :: l) (length l) eq_refl)
        as (s & p & Hsp & _ & Htk & _).
      exists p. rewrite Nat.sub_0_r, Htk. done. }
    split_and!; try done.
    + by exists c.
    + rewrite Hc, length_app. simpl. lia.
    + intros i c' Hi. rewrite Hc. by apply lookup_app_l_Some.
  - intros cs c n log. unfold remover_cadeira. simpl.
    by rewrite pop_back_snoc.
Qed.

Lemma pegar_cadeira_loop_num_livres id cs :
  ((pegar_cadeira_loop id cs).1 = true ↔ (0 < num_livres cs)%nat) ∧
  (id ≠ 0 → (pegar_cadeira_loop id cs).1 = true →
   S (num_livres (pegar_cadeira_loop id cs).2) = num_livres cs).
Proof.
  unfold num_livres. induction cs as [|c cs [IH1 IH2]]; simpl.
  { split; [split; [done|lia]|done]. }
  rewrite filter_cons. case_decide as Hc; simpl.
  - split; [split; [lia|done]|]. intros Hid _.
    rewrite filter_cons_False; [done|]. simpl. done.
  - rewrite filter_cons_False by done. split; [done|]. done.
Qed.

Lemma num_livres_ocupadas cs :
  (num_livres cs + num_ocupadas cs)%nat = length cs.
Proof.
  unfold num_livres, num_ocupadas, ocupantes.
  induction cs as [|c cs IH]; [done|].
  rewrite fmap_cons, !filter_cons. simpl.
  destruct (decide (get_id_jogador c = 0)) as [H0|H0].
  - rewrite decide_False by (by intros H; apply H). simpl. lia.
  - rewrite decide_True by done. simpl. lia.
Qed.

Lemma pegar_cadeira_livre id g sentados livres :
  Forall (λ j, j ≠ 0) sentados →
  cadeiras_ g = (MkCadeira <$> sentados) ++ replicate (S livres) Cadeira_new →
  pegar_cadeira id g =
  (true, MkJogo (num_jogadores_ g)
                ((MkCadeira <$> (sentados ++ [id])) ++
                 replicate livres Cadeira_new)
                (jogadores_eliminados_ g)).
Proof.
  intros Hs Hcs. unfold pegar_cadeira.
  by rewrite Hcs, pegar_cadeira_loop_livre.
Qed.

Lemma pegar_cadeira_cheio id g sentados :
  Forall (λ j, j ≠ 0) sentados →
  cadeiras_ g = MkCadeira <$> sentados →
  pegar_cadeira id g = (false, g).
Proof.
  intros Hs Hcs. unfold pegar_cadeira.
  rewrite Hcs, pegar_cadeira_loop_cheio by done. simpl.
  destruct g. simpl in *. by subst.
Qed.

(** X3. Claims are served first come, first served, as long as seats last.
    Let the seats hold the players [sentados] in front and [livres] empty
    seats behind them. Then of the claims made one after the other by the
    nonzero ids [ids], the first [livres] succeed and all later ones fail; the
    successful claimants sit behind the seated players in their order of
    arrival; and the seats that are left stay empty. *)
Theorem reivindicar_correct
    (ids sentados : list Z) (livres : nat) (g : JogoDasCadeiras) :
  Forall (λ j, j ≠ 0) sentados →
  Forall (λ j, j ≠ 0) ids →
  cadeiras_ g = (MkCadeira <$> sentados) ++ replicate livres Cadeira_new →
  (reivindicar ids g).1 =
    replicate (min livres (length ids)) true ++
    replicate (length ids - livres) false ∧
  cadeiras_ (reivindicar ids g).2 =
    (MkCadeira <$> (sentados ++ take livres ids)) ++
    replicate (livres - length ids) Cadeira_new ∧
  num_jogadores_ (reivindicar ids g).2 = num_jogadores_ g ∧
  jogadores_eliminados_ (reivindicar ids g).2 = jogadores_eliminados_ g.
Proof.
  revert sentados livres g.
  induction ids as [|id ids IH]; intros sentados livres g Hs Hi Hcs.
  { simpl. rewrite take_nil, !app_nil_r, Nat.min_0_r, Nat.sub_0_r.
    split_and!; done. }
  apply Forall_cons in Hi as [Hid Hi]. cbn [reivindicar].
  destruct livres as [|livres].
  - simpl in Hcs. rewrite app_nil_r in Hcs.
    rewrite (pegar_cadeira_cheio id g sentados Hs Hcs). simpl.
    destruct (IH sentados 0%nat g Hs Hi) as (H1 & H2 & H3 & H4).
    { simpl. by rewrite app_nil_r. }
    rewrite H1, H2. simpl. rewrite Nat.sub_0_r, take_0. done.
  - rewrite (pegar_cadeira_livre id g sentados livres Hs Hcs). simpl.
    destruct (IH (sentados ++ [id]) livres
                (MkJogo (num_jogadores_ g)
                        ((MkCadeira <$> (sentados ++ [id])) ++
                         replicate livres Cadeira_new)
                        (jogadores_eliminados_ g))) as (H1 & H2 & H3 & H4);
      [by apply Forall_app; split; [|constructor]|done|reflexivity|].
    rewrite H1, H2, H3, H4. rewrite <- app_assoc. done.
Qed.

Lemma reivindicar_correct_witness :
  (reivindicar [7; 5; 9] (JogoDasCadeiras_new 3)).1 = [true; true; false].
Proof.
  exact (proj1 (reivindicar_correct [7; 5; 9] [] 2 (JogoDasCadeiras_new 3)
    ltac:(constructor) ltac:(repeat constructor; done) eq_refl)).
Defined.

Lemma pop_back_fmap {A B} (f : A → B) (l : list A) :
  pop_back (f <$> l) = (λ k : list A, f <$> k) <$> pop_back l.
Proof.
  destruct l as [|x l]; [done|].
  unfold pop_back. rewrite fmap_cons, <- fmap_cons, length_fmap. simpl.
  by rewrite fmap_take.
Qed.

(** X4. Clearing forgets every claim made before it, and clearing and
    removing a seat can be done in either order: [iniciar_rodada] leaves the
    same seats whatever happened to them in the round before. *)
Theorem esvaziar_cadeiras_absorve (id : Z) (g : JogoDasCadeiras) :
  esvaziar_cadeiras (pegar_cadeira id g).2 = esvaziar_cadeiras g ∧
  remover_cadeira (esvaziar_cadeiras g) =
    esvaziar_cadeiras <$> remover_cadeira g ∧
  remover_cadeira (esvaziar_cadeiras (pegar_cadeira id g).2) =
    remover_cadeira (esvaziar_cadeiras g).
Proof.
  assert (esvaziar_cadeiras (pegar_cadeira id g).2 = esvaziar_cadeiras g)
    as Habs.
  { pose proof (esvaziar_cadeiras_replicate (pegar_cadeira id g).2) as H1.
    pose proof (esvaziar_cadeiras_replicate g) as H2.
    unfold pegar_cadeira, esvaziar_cadeiras in *. simpl in *.
    rewrite pegar_cadeira_loop_length in H1. by rewrite H1, H2. }
  split_and!; [done| |by rewrite Habs].
  unfold remover_cadeira, esvaziar_cadeiras. simpl.
  rewrite pop_back_fmap. by destruct (pop_back (cadeiras_ g)).
Qed.

(** X5. [pegar_cadeira] does not look whether the caller already sits: with
    two empty seats, two claims with the same nonzero id both succeed and
    that id then sits on two seats. *)
Theorem pegar_cadeira_mesmo_id (id : Z) (g : JogoDasCadeiras) :
  id ≠ 0 →
  (2 ≤ num_livres (cadeiras_ g))%nat →
  let g1 := (pegar_cadeira id g).2 in
  let g2 := (pegar_cadeira id g1).2 in
  (pegar_cadeira id g).1 = true ∧
  (pegar_cadeira id g1).1 = true ∧
  ocupantes (cadeiras_ g2) ≡ₚ id :: id :: ocupantes (cadeiras_ g) ∧
  ¬ NoDup (ocupantes (cadeiras_ g2)).
Proof.
  intros Hid H2. simpl. unfold pegar_cadeira. simpl.
  destruct (pegar_cadeira_loop_num_livres id (cadeiras_ g)) as [Ht Hl].
  assert ((pegar_cadeira_loop id (cadeiras_ g)).1 = true) as Hr1
    by (apply Ht; lia).
  specialize (Hl Hid Hr1).
  destruct (pegar_cadeira_loop_num_livres id
              (pegar_cadeira_loop id (cadeiras_ g)).2) as [Ht' _].
  assert ((pegar_cadeira_loop id
             (pegar_cadeira_loop id (cadeiras_ g)).2).1 = true) as Hr2
    by (apply Ht'; lia).
  assert (ocupantes (pegar_cadeira_loop id
            (pegar_cadeira_loop id (cadeiras_ g)).2).2
          ≡ₚ id :: id :: ocupantes (cadeiras_ g)) as Hp.
  { rewrite (pegar_cadeira_loop_ocupantes _ _ Hid Hr2).
    by rewrite (pegar_cadeira_loop_ocupantes _ _ Hid Hr1). }
  split_and!; try done.
  rewrite Hp. intros Hnd. apply NoDup_cons in Hnd as [Hnin _].
  apply Hnin. by left.
Qed.

Lemma pegar_cadeira_mesmo_id_witness :
  (pegar_cadeira 7 (pegar_cadeira 7 (JogoDasCadeiras_new 3)).2).1 = true.
Proof.
  refine (proj1 (proj2 (pegar_cadeira_mesmo_id 7 (JogoDasCadeiras_new 3)
                          _ _))).
  - done.
  - vm_compute. lia.
Defined.

(** ** The start of a round *)

(** X6. [iniciar_rodada] does nothing while [num_jogadores_] has not dropped
    below [NUM_JOGADORES], that is in the first round. After that its
    behaviour is defined exactly when there is a seat to remove and the
    update [num_jogadores_ - 1] of its [release] is not negative and keeps
    the counter within the maximum of the semaphore. It then leaves one
    seat less, every seat empty, [num_jogadores_ - 1] permits more than
    before, and the count, the log and the flags as they were. *)
Theorem iniciar_rodada_correct (N : Z) (w : Mundo) :
  (N ≤ num_jogadores_ (jogo w) → iniciar_rodada_def N w = Some w) ∧
  (num_jogadores_ (jogo w) < N →
     (is_Some (iniciar_rodada_def N w) ↔
      cadeiras_ (jogo w) ≠ [] ∧
      1 ≤ num_jogadores_ (jogo w) ∧
      cadeira_sem w + (num_jogadores_ (jogo w) - 1) ≤ N) ∧
     ∀ w1, iniciar_rodada_def N w = Some w1 →
       iniciar_rodada N w = Some w1 ∧
       cadeiras_ (jogo w1) =
         replicate (length (cadeiras_ (jogo w)) - 1) Cadeira_new ∧
       S (length (cadeiras_ (jogo w1))) = length (cadeiras_ (jogo w)) ∧
       cadeira_sem w1 = cadeira_sem w + (num_jogadores_ (jogo w) - 1) ∧
       num_jogadores_ (jogo w1) = num_jogadores_ (jogo w) ∧
       jogadores_eliminados_ (jogo w1) = jogadores_eliminados_ (jogo w) ∧
       musica_parada w1 = musica_parada w ∧
       jogo_ativo w1 = jogo_ativo w ∧
       ativos w1 = ativos w).
Proof.
  unfold iniciar_rodada_def, iniciar_rodada. split.
  - intros Hn. by rewrite decide_False by lia.
  - intros Hn. rewrite !decide_True by done.
    unfold remover_cadeira. rewrite esvaziar_cadeiras_replicate.
    destruct (cadeiras_ (jogo w)) as [|c cs].
    + simpl. split; [|intros w1 [=]].
      split; [by intros [? [=]]|by intros [? _]].
    + cbn [length]. rewrite pop_back_replicate. simpl.
      unfold sem_release_def, sem_release. case_decide as Hg; simpl.
      * split; [split; [intros _; split; [done|lia]|by eexists]|].
        intros w1 [= <-]. simpl.
        rewrite Nat.sub_0_r, length_replicate. done.
      * split; [|intros w1 [=]].
        split; [by intros [? [=]]|]. intros (_ & ? & ?). destruct Hg. lia.
Qed.

Lemma iniciar_rodada_correct_witness :
  ∃ w1, iniciar_rodada_def NUM_JOGADORES
          {| jogo := {| num_jogadores_ := 3;
                        cadeiras_ := [MkCadeira 1; MkCadeira 2; MkCadeira 3];
                        jogadores_eliminados_ := [4] |};
             cadeira_sem := 0; musica_parada := false; jogo_ativo := true;
             ativos := [1; 2; 3] |} = Some w1 ∧
        cadeiras_ (jogo w1) = [Cadeira_new; Cadeira_new] ∧
        cadeira_sem w1 = 2.
Proof.
  eexists. split; [vm_compute; reflexivity|].
  pose proof (iniciar_rodada_correct NUM_JOGADORES
    {| jogo := {| num_jogadores_ := 3;
                  cadeiras_ := [MkCadeira 1; MkCadeira 2; MkCadeira 3];
                  jogadores_eliminados_ := [4] |};
       cadeira_sem := 0; musica_parada := false; jogo_ativo := true;
       ativos := [1; 2; 3] |}) as [_ H].
  destruct H as [_ H]; [vm_compute; reflexivity|].
  destruct (H _ eq_refl) as (_ & Hcs & _ & Hsem & _).
  split; [exact Hcs|exact Hsem].
Defined.

(** ** The players at the semaphore *)

(** X7. The semaphore is the gate to the seats. A player is held in
    [acquire] exactly when no permit is left. As long as there are no more
    permits than empty seats, a player that gets through finds a seat, and
    there are still no more permits than empty seats afterwards: one of each
    is gone. *)
Theorem tentar_ocupar_cadeira_com_vaga (id : Z) (w : Mundo) :
  id ≠ 0 →
  cadeira_sem w ≤ Z.of_nat (num_livres (cadeiras_ (jogo w))) →
  (tentar_ocupar_cadeira id w = None ↔ cadeira_sem w ≤ 0) ∧
  (0 < cadeira_sem w →
     ∃ w', tentar_ocupar_cadeira id w = Some (true, w') ∧
           cadeira_sem w' = cadeira_sem w - 1 ∧
           S (num_livres (cadeiras_ (jogo w'))) =
             num_livres (cadeiras_ (jogo w)) ∧
           cadeira_sem w' ≤ Z.of_nat (num_livres (cadeiras_ (jogo w'))) ∧
           jogadores_eliminados_ (jogo w') = jogadores_eliminados_ (jogo w) ∧
           ativos w' = ativos w).
Proof.
  intros Hid Hle. unfold tentar_ocupar_cadeira, sem_acquire.
  split.
  - case_decide; simpl; split; (done || lia).
  - intros Hpos. rewrite decide_True by done. simpl.
    destruct (pegar_cadeira_loop_num_livres id (cadeiras_ (jogo w)))
      as [Ht Hl].
    assert ((pegar_cadeira_loop id (cadeiras_ (jogo w))).1 = true) as Hr
      by (apply Ht; lia).
    specialize (Hl Hid Hr). rewrite Hr.
    eexists. split; [done|]. simpl. split_and!; try done. lia.
Qed.

Lemma tentar_ocupar_cadeira_com_vaga_witness :
  ∃ w', tentar_ocupar_cadeira 3 (parar_musica (Mundo_inicial NUM_JOGADORES))
          = Some (true, w') ∧ cadeira_sem w' = 2.
Proof.
  destruct (proj2 (tentar_ocupar_cadeira_com_vaga 3
              (parar_musica (Mundo_inicial NUM_JOGADORES))
              ltac:(done) ltac:(vm_compute; done)) ltac:(vm_compute; done))
    as (w' & Hw & Hs & _).
  exists w'. split; [exact Hw|]. rewrite Hs. reflexivity.
Defined.

(** X8. What one pass of a player through the loop body of [joga] does to
    the shared state. Without a permit the player is held. With one, the
    permit is used up and either the player takes the first empty seat,
    stays in the game and the log is untouched; or every seat is occupied,
    the seats are untouched, the player is appended to the log and its
    thread ends. A player is never logged while a seat is empty. *)
Theorem joga_corrida_correct (id : Z) (w : Mundo) :
  (joga_corrida id w = None ↔ cadeira_sem w ≤ 0) ∧
  ∀ w', joga_corrida id w = Some w' →
    cadeira_sem w' = cadeira_sem w - 1 ∧
    num_jogadores_ (jogo w') = num_jogadores_ (jogo w) ∧
    musica_parada w' = musica_parada w ∧
    jogo_ativo w' = jogo_ativo w ∧
    ((∃ i, primeira_livre (cadeiras_ (jogo w)) i ∧
           cadeiras_ (jogo w') = <[i := MkCadeira id]> (cadeiras_ (jogo w)) ∧
           jogadores_eliminados_ (jogo w') = jogadores_eliminados_ (jogo w) ∧
           ativos w' = ativos w) ∨
     (Forall ocupada (cadeiras_ (jogo w)) ∧
      cadeiras_ (jogo w') = cadeiras_ (jogo w) ∧
      jogadores_eliminados_ (jogo w') =
        jogadores_eliminados_ (jogo w) ++ [id] ∧
      ativos w' = filter (λ j, j ≠ id) (ativos w))).
Proof.
  unfold joga_corrida, tentar_ocupar_cadeira, sem_acquire.
  case_decide as Hs; simpl.
  2:{ split; [split; [lia|done]|done]. }
  split; [split; [|lia]|].
  { unfold pegar_cadeira. simpl.
    by destruct (pegar_cadeira_loop id (cadeiras_ (jogo w))).1. }
  intros w'. unfold pegar_cadeira. simpl.
  destruct (pegar_cadeira_loop id (cadeiras_ (jogo w))).1 eqn:Hr;
    intros [= <-]; simpl; split_and!; try done.
  - left. destruct (pegar_cadeira_loop_true _ _ Hr) as (i & Hi & Heq).
    exists i. by rewrite Heq.
  - right. destruct (pegar_cadeira_loop_false _ _ Hr) as [Heq HF].
    by rewrite Heq.
Qed.

Lemma joga_corrida_sem id w :
  (joga_corrida id w = None → cadeira_sem w ≤ 0) ∧
  ∀ w', joga_corrida id w = Some w' →
    0 < cadeira_sem w ∧ cadeira_sem w' = cadeira_sem w - 1 ∧
    length (cadeiras_ (jogo w')) = length (cadeiras_ (jogo w)).
Proof.
  unfold joga_corrida, tentar_ocupar_cadeira, sem_acquire, pegar_cadeira.
  case_decide as Hs; simpl; [|split; [lia|done]].
  split; [by destruct (pegar_cadeira_loop id (cadeiras_ (jogo w))).1|].
  intros w'.
  destruct (pegar_cadeira_loop id (cadeiras_ (jogo w))).1 eqn:Hr;
    intros [= <-]; simpl; split_and!; try done;
    apply pegar_cadeira_loop_length.
Qed.

(** X9. The gate lets through as many racers as there are permits and no
    more, in their order of arrival: of the racers [ordem], the first
    [cadeira_sem] pass and use up one permit each, and the others stay
    behind, in order, once the permits are gone. *)
Theorem correr_passa_permits (ordem : list Z) (w : Mundo) :
  0 ≤ cadeira_sem w →
  (correr ordem w).2 = drop (Z.to_nat (cadeira_sem w)) ordem ∧
  cadeira_sem (correr ordem w).1 =
    cadeira_sem w - Z.of_nat (length ordem - length (correr ordem w).2) ∧
  0 ≤ cadeira_sem (correr ordem w).1 ∧
  ((correr ordem w).2 ≠ [] → cadeira_sem (correr ordem w).1 = 0) ∧
  length (cadeiras_ (jogo (correr ordem w).1)) = length (cadeiras_ (jogo w)).
Proof.
  revert w. induction ordem as [|id resto IH]; intros w Hs.
  { simpl. rewrite drop_nil. split_and!; try done; lia. }
  simpl. destruct (joga_corrida id w) as [w'|] eqn:Hj.
  - destruct (proj2 (joga_corrida_sem id w) w' Hj) as (Hpos & Hs' & Hlen).
    destruct (IH w') as (H1 & H2 & H3 & H4 & H5); [lia|].
    rewrite H1, H5, Hlen. rewrite H1 in H2, H4.
    replace (Z.to_nat (cadeira_sem w))
      with (S (Z.to_nat (cadeira_sem w'))) by lia.
    simpl. split_and!; try done.
    rewrite H2. rewrite !length_drop. lia.
  - apply joga_corrida_sem in Hj.
    replace (Z.to_nat (cadeira_sem w)) with 0%nat by lia. simpl.
    split_and!; try done; try lia.
Qed.

Lemma correr_passa_permits_witness :
  (correr [3; 1; 4; 2] (parar_musica (Mundo_inicial NUM_JOGADORES))).2 = [2].
Proof.
  exact (proj1 (correr_passa_permits [3; 1; 4; 2]
    (parar_musica (Mundo_inicial NUM_JOGADORES)) ltac:(vm_compute; done))).
Defined.

(** ** Orderly rounds with a racer missing *)

Section PartidaMais.
Context (N : Z) (HN : 2 ≤ N).



End PartidaMais.


(** ** The semaphore protocol: who waits, and for how long *)


Section ProtocoloMais.
Context (N : Z) (HN : 2 ≤ N).

End ProtocoloMais.


(** ** The mutex in the thread bodies *)

Lemma mutex_final_app d l1 l2 :
  mutex_final d (l1 ++ l2) = mutex_final d l1 ≫= λ d', mutex_final d' l2.
Proof.
  revert d. induction l1 as [|i l1 IH]; intros d; [done|].
  destruct i; simpl; try apply IH; destruct d; simpl; try done; apply IH.
Qed.

Lemma mutex_final_sondagem d n : mutex_final d (sondagem_codigo n) = Some d.
Proof. induction n as [|n IH]; simpl; [done|apply IH]. Qed.

Lemma sob_mutex_app p d d' l1 l2 :
  mutex_final d l1 = Some d' →
  sob_mutex p d (l1 ++ l2) = sob_mutex p d l1 && sob_mutex p d' l2.
Proof.
  revert d. induction l1 as [|i l1 IH]; intros d Hm.
  { simpl in *. by simplify_eq. }
  destruct i; simpl in *.
  - destruct d; [done|]. by apply IH.
  - destruct d; [|done]. by apply IH.
  - destruct d; [|done]. by rewrite (IH _ Hm), andb_assoc.
  - by rewrite (IH _ Hm), andb_assoc.
  - by rewrite (IH _ Hm), andb_assoc.
  - by rewrite (IH _ Hm), andb_assoc.
  - by rewrite (IH _ Hm), andb_assoc.
  - by rewrite (IH _ Hm), andb_assoc.
  - by rewrite (IH _ Hm), andb_assoc.
  - by rewrite (IH _ Hm), andb_assoc.
  - by rewrite (IH _ Hm), andb_assoc.
  - by rewrite (IH _ Hm), andb_assoc.
  - by rewrite (IH _ Hm), andb_assoc.
Qed.

Lemma sob_mutex_sondagem d n :
  sob_mutex sinaliza_musica d (sondagem_codigo n) = true ∧
  sob_mutex (λ i, bool_decide (i = ISetJogoAtivo false)) d
            (sondagem_codigo n) = true.
Proof. induction n as [|n IH]; simpl; [done|apply IH]. Qed.

(** X15. However long the polls and whichever branch is taken, the body of
    the coordinator's loop and the body of the player's loop use
    [music_mutex] correctly: they never lock it twice, never unlock it
    without holding it, wait on [music_cv] only while holding it, and leave
    it released at the end. The coordinator stores to [musica_parada] and
    notifies [music_cv] only with the mutex held, so that a player cannot
    test the flag and go to sleep in between; its store to [jogo_ativo] is
    made without the mutex. *)
Theorem mutex_bem_usado (primeira final sentou : bool) (p1 p2 : nat) :
  mutex_final false (coordenador_iteracao primeira final p1 p2)
    = Some false ∧
  mutex_final false (joga_iteracao sentou) = Some false ∧
  sob_mutex sinaliza_musica false
    (coordenador_iteracao primeira final p1 p2) = true ∧
  sob_mutex (λ i, bool_decide (i = ISetJogoAtivo false)) false
    (coordenador_iteracao primeira true p1 p2) = false.
Proof.
  unfold coordenador_iteracao. split_and!.
  - destruct primeira, final; simpl;
      rewrite mutex_final_app, mutex_final_sondagem; simpl;
      rewrite mutex_final_app, mutex_final_sondagem; done.
  - by destruct sentou.
  - destruct primeira, final; simpl;
      rewrite (sob_mutex_app _ false false) by apply mutex_final_sondagem;
      rewrite (proj1 (sob_mutex_sondagem _ _)); simpl;
      rewrite (sob_mutex_app _ false false) by apply mutex_final_sondagem;
      rewrite (proj1 (sob_mutex_sondagem _ _)); done.
  - destruct primeira; simpl;
      rewrite (sob_mutex_app _ false false) by apply mutex_final_sondagem;
      rewrite (proj2 (sob_mutex_sondagem _ _)); simpl;
      rewrite (sob_mutex_app _ false false) by apply mutex_final_sondagem;
      rewrite (proj2 (sob_mutex_sondagem _ _)); done.
Qed.

(** ** Between two rounds *)

(** X16. Nothing makes the coordinator wait for a seated player to see the
    music restart. Between two rounds the coordinator restarts the music and
    stops it again; when the player that waits for the restart does not get
    to test the flag in between, it finds the music stopped when the
    coordinator is done and keeps waiting for a restart, while the round it
    should race in has begun. The player has not left the game either: the
    flag [jogo_ativo] is still set. *)
Theorem jogador_pode_perder_recomeco
    (primeira final : bool) (p1 p2 q1 q2 : nat) (w : Mundo) :
  musica_parada w = true →
  jogo_ativo w = true →
  (∃ antes depois,
     coordenador_iteracao primeira false p1 p2 ++
     coordenador_iteracao false final q1 q2 =
       antes ++ entre_rodadas_codigo ++ depois) ∧
  ∃ c, rtc passo_final (MkFinal w entre_rodadas_codigo EsperaRecomecar) c ∧
       fi_coordenador c = [] ∧
       fi_pc c = EsperaRecomecar ∧
       passo_jogador (fi_mundo c) (fi_pc c) = None ∧
       musica_parada (fi_mundo c) = true ∧
       jogo_ativo (fi_mundo c) = true.
Proof.
  intros Hmp Hja. split.
  - exists ([ILerJogoAtivo] ++ iniciar_rodada_codigo primeira ++ [ISleep] ++
            parar_musica_codigo ++ sondagem_codigo p1 ++
            [IJogo MEliminarJogador] ++ [ISemRelease] ++
            sondagem_codigo p2 ++ [IJogo MExibirEstado] ++
            [IJogo MGetNumJogadores]).
    exists (sondagem_codigo q1 ++ [IJogo MEliminarJogador] ++
            [ISemRelease] ++ sondagem_codigo q2 ++ [IJogo MExibirEstado] ++
            [IJogo MGetNumJogadores] ++
            (if final then fim_de_jogo_codigo else comecar_musica_codigo)).
    unfold coordenador_iteracao, entre_rodadas_codigo.
    by rewrite <- !(assoc_L (++)).
  - exists (MkFinal (com_musica_parada true (com_musica_parada false w))
                    [] EsperaRecomecar).
    split_and!; try done.
    unfold entre_rodadas_codigo, comecar_musica_codigo, parar_musica_codigo.
    simpl.
    do 14 (eapply rtc_l; [apply passo_final_coordenador|]). simpl.
    apply rtc_refl.
Qed.

Lemma jogador_pode_perder_recomeco_witness :
  ∃ c, rtc passo_final
         (MkFinal (parar_musica (Mundo_inicial NUM_JOGADORES))
                  entre_rodadas_codigo EsperaRecomecar) c ∧
       fi_coordenador c = [] ∧ fi_pc c = EsperaRecomecar.
Proof.
  destruct (proj2 (jogador_pode_perder_recomeco false false 0 0 0 0
              (parar_musica (Mundo_inicial NUM_JOGADORES)) eq_refl eq_refl))
    as (c & Hc & H1 & H2 & _).
  by exists c.
Defined.

(** ** The program as a whole *)



(** X12. The program can hang. In the game of four there is a schedule,
    every step of which is one statement of the source, at the end of which
    the coordinator has left its loop with [jogo_ativo] cleared and player 3
    printed as the winner, players 1, 2 and 4 have returned, and the thread
    of player 3 is in [acquire] with no permit left. No thread can run a
    statement any more and the state never changes again, so that the
    [join] of [main] on that thread does not return. *)
Theorem jogador_preso_em_acquire :
  ∃ pf,
    executar_prog NUM_JOGADORES
      (rodada1_ordeira ++ rodada2_tardia ++ rodada3_inicio_tardio ++
       rodada3_tardia)
      (Programa_inicial NUM_JOGADORES) = Some pf ∧
    pr_coord pf = CSaiu ∧
    jogo_ativo (pr_mundo pf) = false ∧
    musica_parada (pr_mundo pf) = false ∧
    pr_vencedor pf = Some 3 ∧
    pr_jogs pf =
      [(1, JRetornou); (2, JRetornou); (3, JAcquire); (4, JRetornou)] ∧
    cadeira_sem (pr_mundo pf) = 0 ∧
    jogadores_eliminados_ (jogo (pr_mundo pf)) = [4; 1; 2] ∧
    parado NUM_JOGADORES pf ∧
    ∀ p', rtc (passo_rel NUM_JOGADORES) pf p' → p' = pf.
Proof.
  eexists. split; [vm_compute; reflexivity|].
  assert (parado NUM_JOGADORES
            {| pr_mundo :=
                 {| jogo := {| num_jogadores_ := 1;
                               cadeiras_ := [MkCadeira 3];
                               jogadores_eliminados_ := [4; 1; 2] |};
                    cadeira_sem := 0; musica_parada := false;
                    jogo_ativo := false; ativos := [3] |};
               pr_coord := CSaiu;
               pr_jogs := [(1, JRetornou); (2, JRetornou); (3, JAcquire);
                           (4, JRetornou)];
               pr_rodada := 3;
               pr_vencedor := Some 3 |}) as Hpar.
  { intros [|[|[|[|[|i]]]]]; reflexivity. }
  split_and!; try reflexivity; [exact Hpar|].
  intros p' Hrtc. destruct Hrtc as [|p1 p2 p3 [t Hp] _]; [done|].
  rewrite Hpar in Hp. done.
Qed.

(** X13. In every interleaving the counter of the semaphore stays between
    0 and the number of seats, which is at most [N - 1]. With the
    statements taken one at a time, the preconditions of the calls the
    program makes hold in every reachable state but for one: a vector is
    not empty when [pop_back] or [operator[]] is applied to it, the
    decrement of [eliminar_jogador] does not overflow, and every [release]
    keeps the counter within the maximum the semaphore was declared with;
    only the [back()] of [exibir_estado] (line 274) can find its vector,
    the log, empty. No statement of a player is ever undefined, and a
    statement of the coordinator is undefined exactly in that case. What
    two statements that are not synchronised do when they overlap is not
    part of this. *)
Theorem passo_indefinido_so_exibir_estado (N : Z) (p : Programa) (t : Thread) :
  2 ≤ N →
  alcanca_prog N p →
  let w := pr_mundo p in
  0 ≤ cadeira_sem w ≤ Z.of_nat (length (cadeiras_ (jogo w))) ∧
  Z.of_nat (length (cadeiras_ (jogo w))) ≤ N - 1 ∧
  (passo_prog N t p = Indefinido ↔
   t = TCoord ∧ pr_coord p = CExibir ∧
   jogadores_eliminados_ (jogo w) = []).
Proof.
  intros HN Halc.
  pose proof (alcanca_prog_inv _ HN _ Halc) as Hinv.
  pose proof (inv_prog_numeros _ HN _ Hinv) as (_ & _ & Hs & Hc & _).
  simpl in *. split_and!; try done; try lia.
  split.
  - intros Hp. destruct t as [|i].
    + simpl in Hp.
      destruct (decide (pr_coord p = CSaiu)) as [E|Hsaiu].
      { unfold passo_coordenador in Hp. by rewrite E in Hp. }
      destruct (decide (pr_coord p = CExibir ∧
                        jogadores_eliminados_ (jogo (pr_mundo p)) = []))
        as [[? ?]|Hne]; [done|].
      destruct (passo_coordenador_definido _ HN _ Hinv Hsaiu) as [p' Hp'].
      * intros E Hl. apply Hne. done.
      * congruence.
    + simpl in Hp.
      destruct (pr_jogs p !! i) as [[id pc]|]; [|done].
      pose proof (passo_thread_jogador_definido id pc (pr_mundo p)).
      destruct (passo_thread_jogador id pc (pr_mundo p)) as [[]| |]; done.
  - intros (-> & Hpc & Hl). simpl. unfold passo_coordenador, exibir_estado.
    rewrite Hpc, Hl. done.
Qed.

Lemma passo_indefinido_so_exibir_estado_witness :
  ∃ p, executar_prog NUM_JOGADORES rodada1_sem_registro
         (Programa_inicial NUM_JOGADORES) = Some p ∧
       pc_jogador p 3 = Some JRegistrar ∧
       passo_prog NUM_JOGADORES TCoord p = Indefinido.
Proof.
  eexists. split; [vm_compute; reflexivity|]. split; [reflexivity|].
  refine (proj2 (proj2 (proj2 (passo_indefinido_so_exibir_estado
            NUM_JOGADORES _ TCoord _ _))) _).
  - unfold NUM_JOGADORES. lia.
  - apply (executar_prog_rtc NUM_JOGADORES rodada1_sem_registro).
    vm_compute. reflexivity.
  - split_and!; reflexivity.
Defined.
